(** * Federated REINFORCE on a remote worker: a shallow embedding

    The program is the notebook
    [examples/experimental/Federated Learning Reinforcement Learning Agent.ipynb]:
    a policy-gradient agent whose policy network lives on the virtual
    worker [bob].  Python floats are idealised as real numbers; a torch
    tensor entry is a real number or a non-finite value, because torch
    arithmetic does not raise on a division by zero. *)

From Stdlib Require Import Reals Lra Lia.
From Stdlib Require Floats.
From stdpp Require Import base option list gmap.

(** ** Numbers *)

Module Num.
Local Open Scope R_scope.

(** Exact sum of a list of Python floats. *)
Definition Rsum (xs : list R) : R := foldr Rplus 0 xs.

(** A torch scalar: [Some x] is the finite value [x], [None] is a
    non-finite IEEE value (nan, and the infinities that a division of a
    non-zero number by zero yields). *)
Definition scalar := option R.

Definition fadd (a b : scalar) : scalar :=
  match a, b with Some x, Some y => Some (x + y) | _, _ => None end.

Definition fsub (a b : scalar) : scalar :=
  match a, b with Some x, Some y => Some (x - y) | _, _ => None end.

Definition fmul (a b : scalar) : scalar :=
  match a, b with Some x, Some y => Some (x * y) | _, _ => None end.

(** Division never raises: a zero divisor gives a non-finite result. *)
Definition fdiv (a b : scalar) : scalar :=
  match a, b with
  | Some x, Some y => if Req_dec_T y 0 then None else Some (x / y)
  | _, _ => None
  end.

Definition fsqrt (a : scalar) : scalar :=
  match a with
  | Some x => if Rlt_dec x 0 then None else Some (sqrt x)
  | None => None
  end.

(** A one-dimensional torch tensor. *)
Definition tensor := list scalar.

(** [torch.tensor(xs)] on a list of Python floats. *)
Definition torch_tensor (xs : list R) : tensor := map Some xs.

Definition tensor_sum (t : tensor) : scalar := foldr fadd (Some 0) t.

(** [t.mean()]: the sum over the number of entries (0/0 on no entry). *)
Definition tensor_mean (t : tensor) : scalar :=
  fdiv (tensor_sum t) (Some (INR (length t))).

(** The unbiased (Bessel-corrected) variance that [t.std()] takes the
    root of: the squared deviations are summed and divided by [n - 1]. *)
Definition tensor_var (t : tensor) : scalar :=
  let m := tensor_mean t in
  fdiv (tensor_sum (map (fun x => fmul (fsub x m) (fsub x m)) t))
       (Some (INR (length t - 1))).

(** [t.std()], torch's default [unbiased=True]. *)
Definition tensor_std (t : tensor) : scalar := fsqrt (tensor_var t).

(** [(t - t.mean()) / t.std()], entry by entry with broadcasting. *)
Definition normalize (t : tensor) : tensor :=
  let m := tensor_mean t in
  let s := tensor_std t in
  map (fun x => fdiv (fsub x m) s) t.

(** The loop of [discount_and_normailze_rewards]: it walks the rewards
    backwards (the slice [::-1]), and [insert(0, _)] puts each running
    value in front of the ones found so far. The loop is the same for
    every kind of number that has [+] and [*]. *)
Section Loop.
Context {A : Type} (add mul : A -> A -> A).

Fixpoint discount_loop (discount_rate : A) (reversed_rewards : list A)
    (cumulative_rewards : A) (discounted_rewards : list A) : list A :=
  match reversed_rewards with
  | [] => discounted_rewards
  | reward :: rest =>
      let cumulative_rewards :=
        add reward (mul discount_rate cumulative_rewards) in
      discount_loop discount_rate rest cumulative_rewards
        (cumulative_rewards :: discounted_rewards)
  end.

End Loop.

(** The discounting step: the state of [discounted_rewards] when the
    loop ends, before it is turned into a tensor. *)
Definition discount_rewards (discount_rate : R) (episode_raw_rewards : list R)
    : list R :=
  discount_loop Rplus Rmult discount_rate (rev episode_raw_rewards) 0 [].

(** [discount_and_normailze_rewards()], with the two globals it reads
    ([discount_rate] and [policy.episode_raw_rewards]) as arguments. *)
Definition discount_and_normailze_rewards (discount_rate : R)
    (episode_raw_rewards : list R) : tensor :=
  normalize (torch_tensor (discount_rewards discount_rate episode_raw_rewards)).

(** The notebook's [discount_rate = 0.95]. *)
Definition discount_rate : R := 95 / 100.

End Num.

(** The same discounting step on IEEE binary64 numbers, the floats of
    Python. *)
Module Binary64.
Import PrimFloat.
Local Open Scope float_scope.

Definition discount_rewards (discount_rate : float)
    (episode_raw_rewards : list float) : list float :=
  Num.discount_loop PrimFloat.add PrimFloat.mul discount_rate
    (rev episode_raw_rewards) 0 [].

End Binary64.

(** ** Differentiable scalars

    A tensor entry that takes part in the autograd graph is modelled by
    its value together with its partial derivatives with respect to the
    policy's parameters ([der d k] is the derivative with respect to
    parameter number [k]): the graph of the forward pass, which the
    worker builds where the parameters are. *)

Module Autograd.
Local Open Scope R_scope.

Record dual := Dual { val : R; der : nat -> R }.

Definition dconst (x : R) : dual := Dual x (fun _ => 0).

Definition dadd (a b : dual) : dual :=
  Dual (val a + val b) (fun k => der a k + der b k).

Definition dmul (a b : dual) : dual :=
  Dual (val a * val b) (fun k => der a k * val b + val a * der b k).

Definition ddiv (a b : dual) : dual :=
  Dual (val a / val b)
       (fun k => (der a k * val b - val a * der b k) / (val b * val b)).

Definition dexp (a : dual) : dual :=
  Dual (exp (val a)) (fun k => exp (val a) * der a k).

Definition dlog (a : dual) : dual :=
  Dual (ln (val a)) (fun k => der a k / val a).

(** [F.relu]: the derivative at and below zero is zero. *)
Definition drelu (a : dual) : dual :=
  if Rlt_dec 0 (val a) then a else dconst 0.

(** [-a * c] for a tensor [c] outside the graph. *)
Definition dneg_scale (a : dual) (c : R) : dual :=
  Dual (- val a * c) (fun k => - der a k * c).

Definition dsum (ds : list dual) : dual := foldr dadd (dconst 0) ds.

(** [torch.clamp(a, min=lo, max=hi)]: outside the range the result is
    the bound, and the derivative is zero. *)
Definition dclamp (lo hi : R) (a : dual) : dual :=
  if Rlt_dec (val a) lo then dconst lo
  else if Rlt_dec hi (val a) then dconst hi
  else a.

End Autograd.

(** ** The policy network *)

Module Policy.
Import Autograd.
Local Open Scope R_scope.

(** [policy.parameters()], flattened in registration order:
    [input.weight] (4 x 4, row-major, numbers 0..15), [input.bias]
    (16..19), [output.weight] (2 x 4, numbers 20..27) and [output.bias]
    (28, 29). *)
Abbreviation parameters := (list R).

(** A parameter as a leaf of the autograd graph. *)
Definition leaf (theta : parameters) (k : nat) : dual :=
  Dual (nth k theta 0) (fun i => if Nat.eqb i k then 1 else 0).

(** [nn.Linear(in_features, out_features)] applied to one row [x]:
    [x W^T + b], with the weights from [w_off] and the bias from [b_off]. *)
Definition linear (theta : parameters) (w_off b_off in_features out_features : nat)
    (x : list dual) : list dual :=
  map (fun i =>
         foldr dadd (leaf theta (b_off + i))
           (zip_with dmul
              (map (fun j => leaf theta (w_off + in_features * i + j))
                   (seq 0 in_features))
              x))
      (seq 0 out_features).

Definition input (theta : parameters) : list dual -> list dual :=
  linear theta 0 16 4 4.

Definition output (theta : parameters) : list dual -> list dual :=
  linear theta 20 28 4 2.

Definition relu (x : list dual) : list dual := map drelu x.

(** [F.softmax(x, dim=1)] on the single row of the batch. *)
Definition softmax (x : list dual) : list dual :=
  let e := map dexp x in
  map (fun ei => ddiv ei (dsum e)) e.

(** [Policy.forward]. *)
Definition forward (theta : parameters) (x : list dual) : list dual :=
  let x := input theta x in
  let x := relu x in
  let x := output theta x in
  let x := softmax x in
  x.

End Policy.

(** ** The world the notebook runs in *)

(** The exceptions that can end a run. *)
Inductive error :=
  | NotFoundError      (* the worker does not hold the handle *)
  | OwnershipError     (* a value is on the wrong side for the operation *)
  | DistributionError  (* the sampler refuses the probabilities *)
  | EnvironmentError   (* the environment raises *)
  | RuntimeError       (* torch refuses its arguments *)
  | ValueError.        (* numpy refuses its arguments *)

(** What the worker [bob] can hold. [None] is a tensor of non-finite
    entries. *)
Inductive object :=
  | Tensor (t : option (list Autograd.dual))
  | Parameters (theta : option Policy.parameters).

(** Where the policy's parameters are. *)
Inductive location :=
  | Local (theta : option Policy.parameters)
  | Remote (h : nat).

(** The calls that reach the worker while it holds a value: a value is
    sent, the policy is applied to a tensor of the worker, or a value is
    retrieved. *)
Inductive call :=
  | Sending (o : object)
  | Applying (h_state : nat)
  | Retrieving (h : nat).

(** What an observer of the run sees: the crossings of the ownership
    boundary, the clearing of the worker, and the calls to the
    environment. *)
Inductive event :=
  | Send (h : nat)
  | Get (h : nat)
  | Clear
  | Reset
  | Step (action : nat) (reward : R) (done : bool).

(** The collaborators outside the notebook: the gym environment and
    torch's sampler, each with its own state. They may raise. *)
Class Collaborators := {
  env_state : Type;
  rng_state : Type;
  env_reset : env_state -> error + (list R * env_state);
  env_step : env_state -> nat -> error + (list R * R * bool * env_state);
  multinomial : rng_state -> option (list R) -> error + (nat * rng_state)
}.

Section Program.
Context `{C : Collaborators}.
Import Num Autograd.
Local Open Scope R_scope.

Record world := World {
  bob : gmap nat object;                 (* the worker's object store *)
  next_id : nat;                         (* the next handle to give out *)
  trace : list event;
  policy : location;
  episode_log_probs : list (option dual);
  episode_raw_rewards : list R;
  total_rewards : list R;
  env : env_state;
  rng : rng_state
}.

Definition set_bob (f : gmap nat object -> gmap nat object) (w : world) : world :=
  World (f (bob w)) (next_id w) (trace w) (policy w) (episode_log_probs w)
        (episode_raw_rewards w) (total_rewards w) (env w) (rng w).

Definition set_next_id (n : nat) (w : world) : world :=
  World (bob w) n (trace w) (policy w) (episode_log_probs w)
        (episode_raw_rewards w) (total_rewards w) (env w) (rng w).

Definition log (e : event) (w : world) : world :=
  World (bob w) (next_id w) (trace w ++ [e]) (policy w) (episode_log_probs w)
        (episode_raw_rewards w) (total_rewards w) (env w) (rng w).

Definition set_policy (l : location) (w : world) : world :=
  World (bob w) (next_id w) (trace w) l (episode_log_probs w)
        (episode_raw_rewards w) (total_rewards w) (env w) (rng w).

Definition set_episode_log_probs (l : list (option dual)) (w : world) : world :=
  World (bob w) (next_id w) (trace w) (policy w) l
        (episode_raw_rewards w) (total_rewards w) (env w) (rng w).

Definition set_episode_raw_rewards (l : list R) (w : world) : world :=
  World (bob w) (next_id w) (trace w) (policy w) (episode_log_probs w)
        l (total_rewards w) (env w) (rng w).

Definition set_total_rewards (l : list R) (w : world) : world :=
  World (bob w) (next_id w) (trace w) (policy w) (episode_log_probs w)
        (episode_raw_rewards w) l (env w) (rng w).

Definition set_env (s : env_state) (w : world) : world :=
  World (bob w) (next_id w) (trace w) (policy w) (episode_log_probs w)
        (episode_raw_rewards w) (total_rewards w) s (rng w).

Definition set_rng (s : rng_state) (w : world) : world :=
  World (bob w) (next_id w) (trace w) (policy w) (episode_log_probs w)
        (episode_raw_rewards w) (total_rewards w) (env w) s.

(** A statement of the notebook: it ends with a value or with an
    exception, and what it did to the world before an exception stays
    done. *)
Definition M (A : Type) : Type := world -> (error + A) * world.

#[export] Instance M_ret : MRet M := fun A (a : A) w => (inr a, w).

#[export] Instance M_bind : MBind M := fun A B (k : A -> M B) (m : M A) w =>
  match m w with
  | (inl e, w') => (inl e, w')
  | (inr a, w') => k a w'
  end.

Definition raise {A : Type} (e : error) : M A := fun w => (inl e, w).

Definition gets {A : Type} (f : world -> A) : M A := fun w => (inr (f w), w).

Definition modify (f : world -> world) : M unit := fun w => (inr tt, f w).

Definition lift {A : Type} (r : error + A) : M A := fun w => (r, w).

(** *** The worker *)

(** Modelled from the spec: [send] of the Remote Execution Context,
    whose code (PySyft's workers and pointers) is not in the notebook.
    It moves the value into the context under a new handle. *)
Definition send (o : object) : M nat := fun w =>
  let h := next_id w in
  (inr h, log (Send h) (set_next_id (S h) (set_bob (insert h o) w))).

(** Modelled from the spec: [retrieve] ([.get()] on a pointer). It
    returns the value, and the context holds it no longer; an unknown or
    already retrieved handle is a [NotFoundError]. *)
Definition get (h : nat) : M object := fun w =>
  match bob w !! h with
  | Some o => (inr o, log (Get h) (set_bob (delete h) w))
  | None => (inl NotFoundError, w)
  end.

(** Modelled from the spec: [clear] ([bob.clear_objects()]) destroys
    all that the context owns. *)
Definition clear_objects : M unit :=
  modify (fun w => log Clear (set_bob (fun _ => ∅) w)).

(** The forward pass on what the worker holds: non-finite parameters
    or inputs give non-finite probabilities. *)
Definition remote_forward (theta : option Policy.parameters)
    (x : option (list dual)) : option (list dual) :=
  match theta, x with
  | Some theta, Some x => Some (Policy.forward theta x)
  | _, _ => None
  end.

(** Modelled from the spec: [apply], the forward pass inside the
    context ([policy(state)] on a pointer). The result is a new tensor
    of the context; nothing crosses the boundary. *)
Definition policy_call (h_state : nat) : M nat := fun w =>
  match policy w with
  | Local _ => (inl OwnershipError, w)
  | Remote h_policy =>
      match bob w !! h_policy, bob w !! h_state with
      | Some (Parameters theta), Some (Tensor x) =>
          let h := next_id w in
          (inr h, set_next_id (S h)
                    (set_bob (insert h (Tensor (remote_forward theta x))) w))
      | _, _ => (inl NotFoundError, w)
      end
  end.

(** A call on the worker, and a series of calls one after the other. *)
Definition run_call (c : call) : M unit :=
  match c with
  | Sending o => send o;; mret tt
  | Applying h_state => policy_call h_state;; mret tt
  | Retrieving h => get h;; mret tt
  end.

Fixpoint run_calls (cs : list call) : M unit :=
  match cs with
  | [] => mret tt
  | c :: cs' => run_call c;; run_calls cs'
  end.

(** [policy.send(bob)]: the parameters move as one unit. *)
Definition policy_send : M unit :=
  l ← gets policy;
  match l with
  | Local theta =>
      h ← send (Parameters theta);
      modify (set_policy (Remote h))
  | Remote _ => raise OwnershipError
  end.

(** [policy.get()]. *)
Definition policy_get : M unit :=
  l ← gets policy;
  match l with
  | Remote h =>
      o ← get h;
      match o with
      | Parameters theta => modify (set_policy (Local theta))
      | Tensor _ => raise OwnershipError
      end
  | Local _ => raise OwnershipError
  end.

(** *** The sampler and the environment *)

(** [m.sample()] for [m = Categorical(probs)]; the sampler sees the
    values of the probabilities. *)
Definition sample (probs : option (list dual)) : M nat := fun w =>
  match multinomial (rng w) (map val <$> probs) with
  | inl e => (inl e, w)
  | inr (action, g) => (inr action, set_rng g w)
  end.

(** [torch.finfo(torch.float32).eps], the bound that [Categorical]
    clamps its probabilities with. *)
Definition eps : R := / 2 ^ 23.

(** [m.log_prob(action)]: [Categorical] keeps the logarithms of its
    probabilities clamped to [eps, 1 - eps] and returns the entry of the
    action. The softmax output sums to one, so that the normalisation of
    [Categorical] leaves it as it is. Non-finite probabilities have a
    non-finite logarithm; an action out of range raises. *)
Definition log_prob (probs : option (list dual)) (action : nat)
    : error + option dual :=
  match probs with
  | None => inr None
  | Some p =>
      match p !! action with
      | Some q => inr (Some (dlog (dclamp eps (1 - eps) q)))
      | None => inl RuntimeError
      end
  end.

(** [env.reset()]. *)
Definition reset : M (list R) := fun w =>
  match env_reset (env w) with
  | inl e => (inl e, w)
  | inr (state, s) => (inr state, log Reset (set_env s w))
  end.

(** [env.step(action)]. *)
Definition step (action : nat) : M (list R * R * bool) := fun w =>
  match env_step (env w) action with
  | inl e => (inl e, w)
  | inr (state, reward, done, s) =>
      (inr (state, reward, done), log (Step action reward done) (set_env s w))
  end.

(** *** The notebook's functions *)

Definition select_action (state : list R) : M nat :=
  let state := Tensor (Some (map dconst state)) in
  state ← send state;
  probs ← policy_call state;
  probs ← get probs;
  match probs with
  | Tensor probs =>
      action ← sample probs;
      lp ← lift (log_prob probs action);
      modify (fun w => set_episode_log_probs (episode_log_probs w ++ [lp]) w);;
      get state;;
      mret action
  | Parameters _ => raise RuntimeError
  end.

(** One entry of [policy_loss]: [-log_prob * action_score]. *)
Definition loss_term (lp : option dual) (action_score : scalar) : option dual :=
  match lp, action_score with
  | Some d, Some c => Some (dneg_scale d c)
  | _, _ => None
  end.

(** [torch.cat(policy_loss).sum()]; [torch.cat] raises on an empty list. *)
Definition cat_sum (policy_loss : list (option dual)) : error + option dual :=
  match policy_loss with
  | [] => inl RuntimeError
  | _ => inr (foldr (fun t acc =>
                       match t, acc with
                       | Some d, Some a => Some (dadd d a)
                       | _, _ => None
                       end) (Some (dconst 0)) policy_loss)
  end.

(** [optimizer.zero_grad(); policy_loss.backward(); optimizer.step()].
    The entries of [episode_log_probs] were computed in [select_action]
    from the tensor that [probs.get()] brought back, and that tensor is a
    leaf of the local graph: [backward()] ends there and puts no gradient
    on a parameter of the policy, wherever the parameters are. For a
    parameter without gradient [zero_grad()] has nothing to reset and
    [step()] passes it over. So the three calls return, whatever the loss
    is, and change neither the policy nor what the worker holds. *)
Definition backward_and_step (loss : option dual) : M unit := mret tt.

Definition update_policy : M unit :=
  log_probs ← gets episode_log_probs;
  raw_rewards ← gets episode_raw_rewards;
  let discounted_rewards := discount_and_normailze_rewards discount_rate raw_rewards in
  let policy_loss := zip_with loss_term log_probs discounted_rewards in
  policy_loss ← lift (cat_sum policy_loss);
  backward_and_step policy_loss;;
  modify (set_episode_log_probs []);;
  modify (set_episode_raw_rewards []).

(** The body of [for step in range(max_steps)], with [n] steps left. *)
Fixpoint episode_steps (n : nat) (state : list R) (episode_rewards : R) : M R :=
  match n with
  | O => mret episode_rewards
  | S n' =>
      action ← select_action state;
      '(state, reward, done) ← step action;
      modify (fun w => set_episode_raw_rewards (episode_raw_rewards w ++ [reward]) w);;
      let episode_rewards := episode_rewards + reward in
      if (done : bool) then mret episode_rewards
      else episode_steps n' state episode_rewards
  end.

(** One episode up to the call of [update_policy]. *)
Definition rollout (max_steps : nat) : M unit :=
  state ← reset;
  episode_rewards ← episode_steps max_steps state 0;
  modify (fun w => set_total_rewards (total_rewards w ++ [episode_rewards]) w).

Definition episode (max_steps : nat) : M unit :=
  rollout max_steps;; update_policy.

(** [for episode in range(n_episodes)]. *)
Fixpoint episodes (n_episodes max_steps : nat) : M unit :=
  match n_episodes with
  | O => mret tt
  | S n' => episode max_steps;; episodes n' max_steps
  end.

(** [np.mean]: 0/0 on an empty list. *)
Definition np_mean (xs : list R) : scalar :=
  fdiv (Some (Rsum xs)) (Some (INR (length xs))).

(** [np.max]: a [ValueError] on an empty list. *)
Definition np_max (xs : list R) : M R :=
  match xs with
  | [] => raise ValueError
  | x :: xs' => mret (foldl Rmax x xs')
  end.

(** The training cell; it returns the two numbers it prints. *)
Definition training (n_episodes max_steps : nat) : M (scalar * R) :=
  modify (set_total_rewards []);;
  policy_send;;
  episodes n_episodes max_steps;;
  policy_get;;
  clear_objects;;
  totals ← gets total_rewards;
  mx ← np_max totals;
  mret (np_mean totals, mx).

(** The notebook's [range(500)] and [range(1000)]. *)
Definition n_episodes : nat := 500.
Definition max_steps : nat := 1000.

Definition main : M (scalar * R) := training n_episodes max_steps.

(** A [Step] event that reports what [env.step] returned. *)
Definition env_paid (e : event) : Prop :=
  match e with
  | Step action reward d =>
      exists s state s', env_step s action = inr (state, reward, d, s')
  | _ => True
  end.

(** Whether it returns or raises, [m] only adds events to the trace,
    and [Clear] is not among them. *)
Definition quiet {A : Type} (m : M A) : Prop :=
  forall w r w',
    m w = (r, w') -> exists evs, trace w' = trace w ++ evs /\ ~ In Clear evs.

(** No handle at or above [next_id] is in use. *)
Definition fresh (w : world) : Prop :=
  forall h, (next_id w <= h)%nat -> bob w !! h = None.

(** The state of the world during training: the worker holds the
    policy's parameters, and its handles are in order. *)
Definition resident (w : world) : Prop :=
  exists h theta,
    policy w = Remote h /\ bob w !! h = Some (Parameters theta) /\ fresh w.

(** The world when the training cell starts: [policy = Policy()] is
    local with empty buffers, and the worker holds nothing. *)
Definition initial_world (theta : Policy.parameters) (e : env_state)
    (g : rng_state) : world :=
  World ∅ 0 [] (Local (Some theta)) [] [] [] e g.

End Program.

Arguments Policy.forward : simpl never.
Arguments Num.discount_and_normailze_rewards : simpl never.

(** ** Reading a trace *)

Module Trace.
Local Open Scope R_scope.

(** The rewards the environment paid, one per [Step], in order. *)
Fixpoint step_rewards (evs : list event) : list R :=
  match evs with
  | [] => []
  | Step _ reward _ :: evs' => reward :: step_rewards evs'
  | _ :: evs' => step_rewards evs'
  end.

(** The number of environment steps taken. *)
Fixpoint steps (evs : list event) : nat :=
  match evs with
  | [] => O
  | Step _ _ _ :: evs' => S (steps evs')
  | _ :: evs' => steps evs'
  end.

(** The number of values sent to the worker. *)
Fixpoint sends (evs : list event) : nat :=
  match evs with
  | [] => O
  | Send _ :: evs' => S (sends evs')
  | _ :: evs' => sends evs'
  end.

(** The number of values retrieved from the worker. *)
Fixpoint retrieves (evs : list event) : nat :=
  match evs with
  | [] => O
  | Get _ :: evs' => S (retrieves evs')
  | _ :: evs' => retrieves evs'
  end.

(** The [done] flags the environment returned, one per [Step]. *)
Fixpoint dones (evs : list event) : list bool :=
  match evs with
  | [] => []
  | Step _ _ d :: evs' => d :: dones evs'
  | _ :: evs' => dones evs'
  end.

(** The rewards grouped by episode: [env.reset()] opens an episode.
    The first component holds what was paid before the first [Reset]. *)
Fixpoint by_episode (evs : list event) : list R * list (list R) :=
  match evs with
  | [] => ([], [])
  | Step _ reward _ :: evs' =>
      let '(pending, groups) := by_episode evs' in (reward :: pending, groups)
  | Reset :: evs' =>
      let '(pending, groups) := by_episode evs' in ([], pending :: groups)
  | _ :: evs' => by_episode evs'
  end.

End Trace.

(** ** Reference definitions and test collaborators *)

Module Spec.
Local Open Scope R_scope.

(** The discounted returns as the specification words them:
    [G_T = r_T] and [G_t = r_t + gamma * G_{t+1}]. *)
Fixpoint returns (gamma : R) (rewards : list R) : list R :=
  match rewards with
  | [] => []
  | r :: rest =>
      match returns gamma rest with
      | [] => [r]
      | (g :: _) as G => (r + gamma * g) :: G
      end
  end.

(** The discounted sum of the rewards of a run of steps: the reward of
    the first step counts in full, that of step [i] after it with weight
    [gamma ^ i]. *)
Definition discounted_sum (gamma : R) (rewards : list R) : R :=
  Num.Rsum (imap (fun i r => gamma ^ i * r) rewards).

End Spec.

Module Stub.
Local Open Scope R_scope.

(** Some initial parameters: thirty zeros. *)
Definition theta0 : Policy.parameters := replicate 30 0.

(** A deterministic environment that always pays reward 1 and ends an
    episode after exactly [5] steps; its state counts the steps of the
    episode. The sampler and the observations are left open. *)
Definition five_steps_env (rng : Type)
    (sampler : rng -> option (list R) -> error + (nat * rng))
    (obs : nat -> list R) : Collaborators := {|
  env_state := nat;
  rng_state := rng;
  env_reset := fun _ => inr (obs O, O);
  env_step := fun n _ => inr (obs (S n), 1, Nat.leb 5 (S n), S n);
  multinomial := sampler
|}.

(** The same with a constant observation and a sampler that always
    draws action 0. *)
Abbreviation five_steps :=
  (five_steps_env unit (fun g _ => inr (O, g)) (fun _ => [0; 0; 0; 0])).

(** The world of [five_steps] once the policy has been sent. *)
Definition sent : @world five_steps :=
  @World five_steps {[O := Parameters (Some theta0)]} 1 [Send O] (Remote O)
         [] [] [] O tt.

(** An environment whose first step raises. *)
Definition broken : Collaborators := {|
  env_state := unit;
  rng_state := unit;
  env_reset := fun _ => inr ([0; 0; 0; 0], tt);
  env_step := fun _ _ => inl EnvironmentError;
  multinomial := fun g _ => inr (O, g)
|}.

(** The world of [broken] when the training cell starts. *)
Definition broken_start : @world broken := @initial_world broken theta0 tt tt.

(** The world of [five_steps] when the training cell starts. *)
Definition start : @world five_steps := @initial_world five_steps theta0 O tt.

End Stub.

(** ** The example of the discounting step in binary64 *)

Section Floats.
Import PrimFloat.
Local Open Scope float_scope.

(** In binary64 arithmetic the three returns of the example are the
    floats nearest to 2.8525, 1.95 and 1. *)
#[warnings="-inexact-float"] Example discount_rewards_binary64 :
  Binary64.discount_rewards 0.95 [1; 1; 1] = [2.8525; 1.95; 1].
Proof. vm_compute. reflexivity. Qed.

End Floats.

(** ** The return normaliser *)

Section Normaliser.
Import Num.
Local Open Scope R_scope.

Lemma discount_loop_foldr gamma l acc :
  discount_loop Rplus Rmult gamma l (hd 0 acc) acc
  = foldr (fun r G => (r + gamma * hd 0 G) :: G) acc (rev l).
Proof.
  revert acc. induction l as [|r l IH]; intros acc; simpl; [done|].
  rewrite foldr_app. simpl.
  apply (IH ((r + gamma * hd 0 acc) :: acc)).
Qed.

Lemma discount_rewards_foldr gamma rs :
  discount_rewards gamma rs
  = foldr (fun r G => (r + gamma * hd 0 G) :: G) [] rs.
Proof.
  unfold discount_rewards.
  pose proof (discount_loop_foldr gamma (rev rs) []) as H.
  simpl in H. rewrite H. by rewrite rev_involutive.
Qed.

Lemma discount_rewards_cons gamma r rs :
  discount_rewards gamma (r :: rs)
  = (r + gamma * hd 0 (discount_rewards gamma rs)) :: discount_rewards gamma rs.
Proof. rewrite !discount_rewards_foldr. done. Qed.

Lemma discount_rewards_length gamma rs :
  length (discount_rewards gamma rs) = length rs.
Proof.
  induction rs as [|r rs IH]; [done|].
  rewrite discount_rewards_cons. simpl. by rewrite IH.
Qed.

(** C1: the discounting step computes the returns of the backward
    recurrence [G_T = r_T], [G_t = r_t + gamma * G_{t+1}], in execution
    order; for rewards [1, 1, 1] and [gamma = 0.95] they are
    [2.8525, 1.95, 1.0]. *)
Theorem discount_rewards_returns :
  (forall gamma rs, discount_rewards gamma rs = Spec.returns gamma rs) /\
  discount_rewards (95 / 100) [1; 1; 1] = [28525 / 10000; 195 / 100; 1].
Proof.
  assert (H : forall gamma rs, discount_rewards gamma rs = Spec.returns gamma rs).
  { intros gamma rs. induction rs as [|r rs IH]; [done|].
    rewrite discount_rewards_cons, IH. simpl.
    destruct (Spec.returns gamma rs); simpl; [f_equal; lra | reflexivity]. }
  split; [exact H|].
  rewrite H. simpl. repeat f_equal; lra.
Qed.

(** Rewards that are all 1, as the cart-pole environment pays them,
    give returns that are not all equal. *)
Lemma returns_of_ones_differ gamma n :
  gamma <> 0 ->
  exists x y,
    In x (discount_rewards gamma (replicate (S (S n)) 1)) /\
    In y (discount_rewards gamma (replicate (S (S n)) 1)) /\ x <> y.
Proof.
  intros Hg. induction n as [|n IH].
  - simpl replicate. rewrite !discount_rewards_cons. simpl.
    eexists _, _. split; [left; reflexivity|].
    split; [right; left; reflexivity|]. nra.
  - destruct IH as (x & y & Hx & Hy & Hxy).
    change (replicate (S (S (S n))) 1) with (1 :: replicate (S (S n)) 1).
    rewrite discount_rewards_cons.
    exists x, y. split; [by right|]. split; [by right | done].
Qed.

(** *** Finite tensors *)

Lemma tensor_sum_finite xs : tensor_sum (torch_tensor xs) = Some (Rsum xs).
Proof.
  induction xs as [|x xs IH]; [done|].
  unfold tensor_sum, torch_tensor in *. simpl. by rewrite IH.
Qed.

Lemma torch_tensor_length xs : length (torch_tensor xs) = length xs.
Proof. apply length_map. Qed.

Lemma fdiv_finite x y : y <> 0 -> fdiv (Some x) (Some y) = Some (x / y).
Proof. intros Hy. simpl. by destruct (Req_dec_T y 0). Qed.

Lemma fdiv_zero x : fdiv (Some x) (Some 0) = None.
Proof. simpl. by destruct (Req_dec_T 0 0). Qed.

Lemma tensor_mean_finite xs :
  xs <> [] -> tensor_mean (torch_tensor xs) = Some (Rsum xs / INR (length xs)).
Proof.
  intros Hxs. unfold tensor_mean.
  rewrite tensor_sum_finite, torch_tensor_length.
  apply fdiv_finite, not_0_INR. by destruct xs.
Qed.

Lemma deviations_finite xs m :
  map (fun x => fmul (fsub x (Some m)) (fsub x (Some m))) (torch_tensor xs)
  = torch_tensor (map (fun x => (x - m) * (x - m)) xs).
Proof. unfold torch_tensor. rewrite !map_map. done. Qed.

Lemma normalize_single (x : R) : normalize (torch_tensor [x]) = [None].
Proof.
  unfold normalize.
  assert (Hstd : tensor_std (torch_tensor [x]) = None).
  { unfold tensor_std, tensor_var.
    rewrite tensor_mean_finite by done.
    rewrite deviations_finite, tensor_sum_finite.
    simpl length. change (INR (1 - 1)) with 0.
    by rewrite fdiv_zero. }
  rewrite Hstd. rewrite tensor_mean_finite by done. done.
Qed.

Lemma single_step_normalises_to_nan_aux (gamma r : R) :
  discount_and_normailze_rewards gamma [r] = [None].
Proof.
  unfold discount_and_normailze_rewards.
  rewrite discount_rewards_cons. apply normalize_single.
Qed.

(** C2 (as the code has it): on a single-step episode the normaliser
    applies no fallback; the standard deviation is the undefined 0/0 and
    the one normalised return is not a finite number. No exception is
    raised. *)
Theorem single_step_normalises_to_nan (gamma r : R) :
  discount_and_normailze_rewards gamma [r] = [None].
Proof.
  unfold discount_and_normailze_rewards.
  rewrite discount_rewards_cons. apply normalize_single.
Qed.

(** C2, the claim as stated fails: with the notebook's discount rate a
    single reward 1 does not normalise to finite values. *)
Lemma single_step_no_fallback :
  ~ exists zs : list R,
      discount_and_normailze_rewards discount_rate [1] = torch_tensor zs.
Proof.
  intros [zs Hzs]. unfold discount_and_normailze_rewards in Hzs.
  rewrite discount_rewards_cons, normalize_single in Hzs.
  by destruct zs as [|z [|? ?]].
Qed.

(** *** Sums *)

Lemma Rsum_shift_scale xs m s :
  Rsum (map (fun x => (x - m) / s) xs) = (Rsum xs - INR (length xs) * m) / s.
Proof.
  induction xs as [|x xs IH].
  - simpl. unfold Rdiv. lra.
  - change (Rsum (map (fun x => (x - m) / s) (x :: xs)))
      with ((x - m) / s + Rsum (map (fun x => (x - m) / s) xs)).
    rewrite IH. change (length (x :: xs)) with (S (length xs)).
    rewrite S_INR. simpl. unfold Rdiv. lra.
Qed.

Lemma Rsum_squares_scale xs m s :
  Rsum (map (fun z => (z - 0) * (z - 0)) (map (fun x => (x - m) / s) xs))
  = Rsum (map (fun x => (x - m) * (x - m)) xs) * (/ s * / s).
Proof.
  induction xs as [|x xs IH]; simpl in *; [lra|].
  rewrite IH. unfold Rdiv. ring.
Qed.

Lemma Rsum_squares_nonneg xs m :
  0 <= Rsum (map (fun x => (x - m) * (x - m)) xs).
Proof.
  induction xs as [|x xs IH]; simpl; [lra|].
  pose proof (Rle_0_sqr (x - m)) as Hsq. unfold Rsqr in Hsq.
  fold (Rsum (map (fun x => (x - m) * (x - m)) xs)). lra.
Qed.

Lemma Rsum_squares_pos xs m x :
  In x xs -> x <> m -> 0 < Rsum (map (fun x => (x - m) * (x - m)) xs).
Proof.
  induction xs as [|y xs IH]; simpl; [done|].
  fold (Rsum (map (fun x => (x - m) * (x - m)) xs)).
  intros [-> | Hin] Hne.
  - pose proof (Rsum_squares_nonneg xs m).
    assert (0 < (x - m) * (x - m)) by (apply Rsqr_pos_lt; lra). lra.
  - specialize (IH Hin Hne).
    pose proof (Rle_0_sqr (y - m)) as Hsq. unfold Rsqr in Hsq. lra.
Qed.

(** The root of the unbiased variance of a finite tensor with at least
    two entries, not all the same, is a positive real. *)
Lemma tensor_std_positive xs x y :
  In x xs -> In y xs -> x <> y ->
  exists s, 0 < s /\
    s * s = Rsum (map (fun z => (z - Rsum xs / INR (length xs)) *
                               (z - Rsum xs / INR (length xs))) xs)
            / INR (length xs - 1) /\
    tensor_std (torch_tensor xs) = Some s.
Proof.
  intros Hx Hy Hxy.
  set (m := Rsum xs / INR (length xs)).
  set (v := Rsum (map (fun z => (z - m) * (z - m)) xs) / INR (length xs - 1)).
  assert (Hlen : (2 <= length xs)%nat).
  { destruct xs as [|a [|b xs]]; simpl in *; [done| |lia].
    destruct Hx as [<-|[]], Hy as [<-|[]]. done. }
  assert (Hn : 0 < INR (length xs - 1)) by (apply lt_0_INR; lia).
  assert (Hv : 0 < v).
  { unfold v. apply Rdiv_lt_0_compat; [|done].
    destruct (Req_dec_T x m) as [Hxm|Hxm].
    - apply (Rsum_squares_pos xs m y Hy). congruence.
    - by apply (Rsum_squares_pos xs m x Hx). }
  exists (sqrt v). split; [by apply sqrt_lt_R0|]. split.
  - apply sqrt_sqrt. lra.
  - unfold tensor_std, tensor_var.
    rewrite tensor_mean_finite by (by destruct xs).
    fold m. rewrite deviations_finite, tensor_sum_finite, torch_tensor_length.
    rewrite fdiv_finite by lra. fold v. simpl.
    destruct (Rlt_dec v 0); [lra | done].
Qed.

Lemma normalize_finite xs m s :
  tensor_mean (torch_tensor xs) = Some m ->
  tensor_std (torch_tensor xs) = Some s ->
  s <> 0 ->
  normalize (torch_tensor xs) = torch_tensor (map (fun x => (x - m) / s) xs).
Proof.
  intros Hm Hs Hs0. unfold normalize. rewrite Hm, Hs.
  unfold torch_tensor. rewrite !map_map. apply map_ext. intros x.
  simpl. by destruct (Req_dec_T s 0).
Qed.

(** Returns that are not all equal normalise to finite values with mean
    0 and unbiased variance 1. *)
Lemma normalize_standard xs x y :
  In x xs -> In y xs -> x <> y ->
  exists zs,
    normalize (torch_tensor xs) = torch_tensor zs /\
    length zs = length xs /\
    Rsum zs = 0 /\
    tensor_mean (torch_tensor zs) = Some 0 /\
    tensor_var (torch_tensor zs) = Some 1.
Proof.
  intros Hx Hy Hxy.
  destruct (tensor_std_positive xs x y Hx Hy Hxy) as (s & Hs & Hss & Hstd).
  assert (Hlen : (2 <= length xs)%nat).
  { destruct xs as [|a [|b xs]]; simpl in *; [done| |lia].
    destruct Hx as [<-|[]], Hy as [<-|[]]. done. }
  assert (Hne : xs <> []) by (by destruct xs).
  set (m := Rsum xs / INR (length xs)) in *.
  assert (Hn : 0 < INR (length xs)) by (apply lt_0_INR; lia).
  assert (Hn1 : 0 < INR (length xs - 1)) by (apply lt_0_INR; lia).
  exists (map (fun x => (x - m) / s) xs).
  assert (Hsum : Rsum (map (fun x => (x - m) / s) xs) = 0).
  { rewrite Rsum_shift_scale. unfold m. field. lra. }
  assert (Hzs : map (fun x => (x - m) / s) xs <> []) by (by destruct xs).
  assert (Hmean : tensor_mean (torch_tensor (map (fun x => (x - m) / s) xs)) = Some 0).
  { rewrite tensor_mean_finite by done. rewrite Hsum. f_equal. unfold Rdiv. lra. }
  repeat split.
  - apply normalize_finite; [by apply tensor_mean_finite | done | lra].
  - by rewrite length_map.
  - done.
  - done.
  - unfold tensor_var. rewrite Hmean.
    rewrite deviations_finite, tensor_sum_finite, torch_tensor_length, length_map.
    rewrite fdiv_finite by lra. f_equal.
    rewrite Rsum_squares_scale.
    set (S := Rsum (map (fun x => (x - m) * (x - m)) xs)) in *.
    assert (HS : S = s * s * INR (length xs - 1)) by (rewrite Hss; field; lra).
    rewrite HS. field. lra.
Qed.

(** C3 (as the code has it): when the discounted returns of an episode
    of at least two steps are not all equal, the normalised returns are
    finite and have mean 0 and unit variance, the variance being the
    unbiased one that [std()] uses. *)
Theorem normalised_returns_standard (gamma : R) (rs : list R) :
  (2 <= length rs)%nat ->
  (exists x y, In x (discount_rewards gamma rs) /\
               In y (discount_rewards gamma rs) /\ x <> y) ->
  tensor_mean (discount_and_normailze_rewards gamma rs) = Some 0 /\
  tensor_var (discount_and_normailze_rewards gamma rs) = Some 1.
Proof.
  intros _ (x & y & Hx & Hy & Hxy).
  destruct (normalize_standard _ x y Hx Hy Hxy) as (zs & Hzs & _ & _ & Hm & Hv).
  unfold discount_and_normailze_rewards. rewrite Hzs. done.
Qed.

(** In the cart-pole environment every step pays 1: there the
    normalised returns of an episode of at least two steps have mean 0
    and unit variance. *)
Corollary cartpole_returns_standard (n : nat) :
  tensor_mean (discount_and_normailze_rewards discount_rate
                 (replicate (S (S n)) 1)) = Some 0 /\
  tensor_var (discount_and_normailze_rewards discount_rate
                (replicate (S (S n)) 1)) = Some 1.
Proof.
  destruct (returns_of_ones_differ discount_rate n)
    as (x & y & Hx & Hy & Hxy); [unfold discount_rate; lra|].
  destruct (normalize_standard _ x y Hx Hy Hxy) as (zs & Hzs & _ & _ & Hm & Hv).
  unfold discount_and_normailze_rewards. rewrite Hzs. done.
Qed.

(** C3 holds for three rewards 1 at the notebook's discount rate. *)
Lemma normalised_returns_standard_witness :
  tensor_mean (discount_and_normailze_rewards discount_rate [1; 1; 1]) = Some 0 /\
  tensor_var (discount_and_normailze_rewards discount_rate [1; 1; 1]) = Some 1.
Proof.
  apply normalised_returns_standard.
  - simpl. lia.
  - exists (1 + discount_rate * (1 + discount_rate * 0)), (1 + discount_rate * 0).
    rewrite !discount_rewards_cons. simpl.
    split; [right; left; done|]. split; [right; right; left; done|].
    unfold discount_rate. lra.
Defined.

(** C3, the claim as stated fails: two rewards 0 give two equal returns,
    the standard deviation is 0 and the normalised returns are 0/0. *)
Lemma constant_returns_not_standard :
  (2 <= length [0; 0])%nat /\
  ~ (tensor_mean (discount_and_normailze_rewards discount_rate [0; 0]) = Some 0 /\
     tensor_var (discount_and_normailze_rewards discount_rate [0; 0]) = Some 1).
Proof.
  split; [simpl; lia|].
  assert (H : discount_and_normailze_rewards discount_rate [0; 0] = [None; None]).
  { unfold discount_and_normailze_rewards. rewrite !discount_rewards_cons.
    change (discount_rewards discount_rate []) with (@nil R). simpl hd.
    replace (0 + discount_rate * 0) with 0 by lra.
    replace (0 + discount_rate * 0) with 0 by lra.
    unfold normalize.
    assert (Hm : tensor_mean (torch_tensor [0; 0]) = Some 0).
    { rewrite tensor_mean_finite by done. f_equal. simpl. field. }
    assert (Hs : tensor_std (torch_tensor [0; 0]) = Some 0).
    { unfold tensor_std, tensor_var. rewrite Hm.
      rewrite deviations_finite, tensor_sum_finite.
      rewrite fdiv_finite by (simpl; lra). simpl.
      replace (((0 - 0) * (0 - 0) + ((0 - 0) * (0 - 0) + 0)) / 1) with 0 by field.
      destruct (Rlt_dec 0 0); [lra|]. by rewrite sqrt_0. }
    rewrite Hm, Hs. simpl. destruct (Req_dec_T 0 0); done. }
  rewrite H. intros [Hm _]. discriminate Hm.
Qed.

End Normaliser.

(** ** Traces *)

Section Traces.
Import Trace.

Lemma step_rewards_app evs1 evs2 :
  step_rewards (evs1 ++ evs2) = step_rewards evs1 ++ step_rewards evs2.
Proof.
  induction evs1 as [|e evs1 IH]; [done|].
  destruct e; simpl; by rewrite ?IH.
Qed.

Lemma by_episode_app evs1 evs2 groups :
  by_episode evs2 = ([], groups) ->
  by_episode (evs1 ++ evs2)
  = ((by_episode evs1).1, (by_episode evs1).2 ++ groups).
Proof.
  intros H2. induction evs1 as [|e evs1 IH]; [done|].
  destruct e; simpl; rewrite ?IH; try done;
    by destruct (by_episode evs1).
Qed.

Lemma steps_length evs : steps evs = length (step_rewards evs).
Proof. induction evs as [|[] evs IH]; simpl; by rewrite ?IH. Qed.

Lemma in_step_rewards evs action reward d :
  In (Step action reward d) evs -> In reward (step_rewards evs).
Proof.
  induction evs as [|e evs IH]; [done|].
  intros [->|H]; [by left|]. destruct e; simpl; auto.
Qed.

Lemma not_in_clear_app (evs1 evs2 : list event) :
  ~ In Clear evs1 -> ~ In Clear evs2 -> ~ In Clear (evs1 ++ evs2).
Proof. intros H1 H2 [H|H]%in_app_or; tauto. Qed.

End Traces.

(** ** The notebook's functions, statement by statement *)

Section Execution.
Context `{C : Collaborators}.
Import Num Autograd Trace.
Local Open Scope R_scope.

Lemma bind_inr {A B} (m : M A) (k : A -> M B) w b w' :
  (m ≫= k) w = (inr b, w') <->
  exists a w1, m w = (inr a, w1) /\ k a w1 = (inr b, w').
Proof.
  unfold mbind, M_bind. split.
  - destruct (m w) as [[e|a] w1]; [done|]. eauto.
  - intros (a & w1 & -> & Hk). done.
Qed.

Lemma bind_inl {A B} (m : M A) (k : A -> M B) w e w' :
  (m ≫= k) w = (inl e, w') <->
  m w = (inl e, w') \/
  exists a w1, m w = (inr a, w1) /\ k a w1 = (inl e, w').
Proof.
  unfold mbind, M_bind. split.
  - destruct (m w) as [[e1|a] w1]; intros Hk; [left; by simplify_eq|]. right. eauto.
  - intros [-> | (a & w1 & -> & Hk)]; done.
Qed.

(** *** The worker's operations *)

Lemma send_run o w :
  send o w = (inr (next_id w),
              World (<[next_id w := o]> (bob w)) (S (next_id w))
                    (trace w ++ [Send (next_id w)]) (policy w)
                    (episode_log_probs w) (episode_raw_rewards w)
                    (total_rewards w) (env w) (rng w)).
Proof. done. Qed.

Lemma get_run h o w :
  bob w !! h = Some o ->
  get h w = (inr o,
             World (delete h (bob w)) (next_id w) (trace w ++ [Get h]) (policy w)
                   (episode_log_probs w) (episode_raw_rewards w)
                   (total_rewards w) (env w) (rng w)).
Proof. intros H. unfold get. by rewrite H. Qed.

Lemma get_inv h o w w' :
  get h w = (inr o, w') ->
  bob w !! h = Some o /\
  w' = World (delete h (bob w)) (next_id w) (trace w ++ [Get h]) (policy w)
             (episode_log_probs w) (episode_raw_rewards w)
             (total_rewards w) (env w) (rng w).
Proof. unfold get. destruct (bob w !! h); intros H; by simplify_eq. Qed.

Lemma get_missing h w :
  bob w !! h = None -> get h w = (inl NotFoundError, w).
Proof. intros H. unfold get. by rewrite H. Qed.

Lemma policy_call_inv h_state h w w' :
  policy_call h_state w = (inr h, w') ->
  exists h_policy theta x,
    policy w = Remote h_policy /\
    bob w !! h_policy = Some (Parameters theta) /\
    bob w !! h_state = Some (Tensor x) /\
    h = next_id w /\
    w' = World (<[next_id w := Tensor (remote_forward theta x)]> (bob w))
               (S (next_id w)) (trace w) (policy w)
               (episode_log_probs w) (episode_raw_rewards w)
               (total_rewards w) (env w) (rng w).
Proof.
  unfold policy_call. intros H.
  destruct (policy w) as [|h_policy] eqn:Hp; [done|].
  destruct (bob w !! h_policy) as [[|theta]|] eqn:H1; [done| |done].
  destruct (bob w !! h_state) as [[x|]|] eqn:H2; [|done|done].
  injection H as <- <-. exists h_policy, theta, x. repeat split; try done.
  unfold set_next_id, set_bob. simpl. by rewrite Hp.
Qed.

Lemma policy_call_run h_state h_policy theta x w :
  policy w = Remote h_policy ->
  bob w !! h_policy = Some (Parameters theta) ->
  bob w !! h_state = Some (Tensor x) ->
  policy_call h_state w
  = (inr (next_id w),
     World (<[next_id w := Tensor (remote_forward theta x)]> (bob w))
           (S (next_id w)) (trace w) (policy w)
           (episode_log_probs w) (episode_raw_rewards w)
           (total_rewards w) (env w) (rng w)).
Proof.
  intros Hp H1 H2. unfold policy_call. rewrite Hp, H1, H2.
  unfold set_next_id, set_bob. simpl. by rewrite Hp.
Qed.

Lemma sample_inv probs action w w' :
  sample probs w = (inr action, w') ->
  exists g,
    multinomial (rng w) (map val <$> probs) = inr (action, g) /\
    w' = World (bob w) (next_id w) (trace w) (policy w)
               (episode_log_probs w) (episode_raw_rewards w)
               (total_rewards w) (env w) g.
Proof.
  unfold sample. destruct (multinomial _ _) as [e|[a g]]; intros H; [done|].
  simplify_eq. by exists g.
Qed.

Lemma step_inv action r w w' :
  step action w = (inr r, w') ->
  exists s,
    env_step (env w) action = inr (r, s) /\
    w' = World (bob w) (next_id w) (trace w ++ [Step action r.1.2 r.2]) (policy w)
               (episode_log_probs w) (episode_raw_rewards w)
               (total_rewards w) s (rng w).
Proof.
  unfold step. destruct (env_step _ _) as [e|[[[state reward] d] s]];
    intros H; [done|].
  simplify_eq. by exists s.
Qed.

Lemma reset_inv state w w' :
  reset w = (inr state, w') ->
  exists s,
    env_reset (env w) = inr (state, s) /\
    w' = World (bob w) (next_id w) (trace w ++ [Reset]) (policy w)
               (episode_log_probs w) (episode_raw_rewards w)
               (total_rewards w) s (rng w).
Proof.
  unfold reset. destruct (env_reset _) as [e|[st s]]; intros H; [done|].
  simplify_eq. by exists s.
Qed.

(** A fresh handle that is filled and emptied again leaves the store
    as it was. *)
Lemma fresh_restore (m : gmap nat object) h o1 o2 :
  m !! h = None -> m !! S h = None ->
  delete h (delete (S h) (<[S h := o2]> (<[h := o1]> m))) = m.
Proof.
  intros H1 H2. apply map_eq. intros i.
  destruct (decide (i = h)) as [->|Hi].
  - by rewrite lookup_delete_eq.
  - rewrite lookup_delete_ne by done.
    destruct (decide (i = S h)) as [->|Hi'].
    + by rewrite lookup_delete_eq.
    + rewrite lookup_delete_ne, !lookup_insert_ne by done. done.
Qed.

(** *** [select_action] *)

(** What [select_action] did when it returns. *)
Lemma select_action_inv state w action w' :
  select_action state w = (inr action, w') ->
  exists h_policy theta g lp,
    let probs := remote_forward theta (Some (map dconst state)) in
    policy w = Remote h_policy /\
    h_policy <> next_id w /\
    bob w !! h_policy = Some (Parameters theta) /\
    multinomial (rng w) (map val <$> probs) = inr (action, g) /\
    log_prob probs action = inr lp /\
    w' = World (delete (next_id w) (delete (S (next_id w))
                 (<[S (next_id w) := Tensor probs]>
                    (<[next_id w := Tensor (Some (map dconst state))]> (bob w)))))
               (S (S (next_id w)))
               (trace w ++ [Send (next_id w); Get (S (next_id w)); Get (next_id w)])
               (policy w)
               (episode_log_probs w ++ [lp])
               (episode_raw_rewards w) (total_rewards w) (env w) g.
Proof.
  unfold select_action. intros H.
  apply bind_inr in H as (h1 & w1 & H1 & H). rewrite send_run in H1.
  injection H1 as <- <-.
  apply bind_inr in H as (h2 & w2 & H2 & H).
  apply policy_call_inv in H2 as (hp & theta & x & Hp & Hth & Hx & -> & ->).
  simpl in *.
  rewrite lookup_insert_eq in Hx. injection Hx as <-.
  assert (Hne : hp <> next_id w).
  { intros ->. by rewrite lookup_insert_eq in Hth. }
  rewrite lookup_insert_ne in Hth by done.
  apply bind_inr in H as (o & w3 & H3 & H).
  apply get_inv in H3 as [Ho ->]. simpl in *.
  rewrite lookup_insert_eq in Ho. injection Ho as <-.
  apply bind_inr in H as (a & w4 & H4 & H).
  apply sample_inv in H4 as (g & Hg & ->). simpl in *.
  apply bind_inr in H as (lp & w5 & H5 & H).
  unfold lift in H5. injection H5 as H5 <-.
  apply bind_inr in H as ([] & w6 & H6 & H).
  unfold modify in H6. injection H6 as <-.
  apply bind_inr in H as (o & w7 & H7 & H).
  apply get_inv in H7 as [Ho ->]. simpl in *.
  unfold mret, M_ret in H. injection H as <- <-.
  exists hp, theta, g, lp. simpl. rewrite <- !app_assoc. done.
Qed.

Lemma select_action_run state w h_policy theta action g lp :
  policy w = Remote h_policy ->
  bob w !! h_policy = Some (Parameters theta) ->
  fresh w ->
  multinomial (rng w)
    (map val <$> remote_forward theta (Some (map dconst state))) = inr (action, g) ->
  log_prob (remote_forward theta (Some (map dconst state))) action = inr lp ->
  select_action state w
  = (inr action,
     World (bob w) (S (S (next_id w)))
           (trace w ++ [Send (next_id w); Get (S (next_id w)); Get (next_id w)])
           (policy w) (episode_log_probs w ++ [lp])
           (episode_raw_rewards w) (total_rewards w) (env w) g).
Proof.
  intros Hp Hth Hfresh Hg Hlp.
  assert (Hne : h_policy <> next_id w).
  { intros ->. rewrite Hfresh in Hth by lia. done. }
  unfold select_action, mbind, M_bind. rewrite send_run.
  erewrite policy_call_run; simpl;
    [|done|by rewrite lookup_insert_ne|by rewrite lookup_insert_eq].
  erewrite get_run by (simpl; apply lookup_insert_eq). simpl.
  unfold sample. simpl. rewrite Hg. unfold lift. rewrite Hlp.
  unfold modify. simpl.
  erewrite get_run; simpl.
  2:{ rewrite lookup_delete_ne, lookup_insert_ne by lia. apply lookup_insert_eq. }
  unfold mret, M_ret. f_equal. f_equal.
  - apply fresh_restore; apply Hfresh; lia.
  - by rewrite <- !app_assoc.
Qed.

(** *** The step loop *)

Lemma episode_steps_inv n : forall state er w er' w',
  episode_steps n state er w = (inr er', w') ->
  exists evs lps,
    trace w' = trace w ++ evs /\
    episode_log_probs w' = episode_log_probs w ++ lps /\
    episode_raw_rewards w' = episode_raw_rewards w ++ step_rewards evs /\
    length lps = length (step_rewards evs) /\
    er' = er + Rsum (step_rewards evs) /\
    by_episode evs = (step_rewards evs, []) /\
    (length (step_rewards evs) <= n)%nat /\
    ((0 < n)%nat -> step_rewards evs <> []) /\
    total_rewards w' = total_rewards w /\
    policy w' = policy w /\
    ~ In Clear evs /\
    (fresh w -> fresh w' /\ bob w' = bob w).
Proof.
  induction n as [|n IH]; intros state er w er' w' H.
  - injection H as <- <-. exists [], []. simpl.
    rewrite !app_nil_r. split_and!; try done; try lia. lra.
  - simpl in H.
    apply bind_inr in H as (action & w1 & H1 & H).
    apply select_action_inv in H1
      as (hp & theta & g & lp & Hp & Hne & Hth & Hg & Hlp & ->).
    apply bind_inr in H as ([[state' reward] d] & w2 & H2 & H).
    apply step_inv in H2 as (s & Hs & ->). simpl in *.
    apply bind_inr in H as ([] & w3 & H3 & H).
    injection H3 as <-.
    set (w3 := set_episode_raw_rewards _ _) in H.
    set (evs1 := [Send (next_id w); Get (S (next_id w)); Get (next_id w);
                  Step action reward d]).
    assert (Hfresh3 : fresh w -> fresh w3 /\ bob w3 = bob w).
    { intros Hf. assert (Hb : bob w3 = bob w).
      { simpl. apply fresh_restore; apply Hf; lia. }
      split; [|done]. intros h Hh. rewrite Hb. apply Hf. simpl in Hh. lia. }
    destruct d.
    + injection H as <- <-. exists evs1, [lp]. simpl.
      rewrite <- !app_assoc. simpl.
      split_and!; try done; try lia.
      * lra.
      * intros [?|[?|[?|[?|[]]]]]; done.
    + apply IH in H as (evs & lps & Ht & Hl & Hr & Hlen & Her & Hby & Hle & _
                        & Htot & Hpol & Hcl & Hfr).
      exists (evs1 ++ evs), (lp :: lps). simpl in *.
      rewrite Ht, Hl, Hr, Hby, <- !app_assoc. simpl.
      split_and!; try done; try lia.
      * rewrite Her. lra.
      * intros [?|[?|[?|[?|?]]]]; done.
      * intros Hf. destruct (Hfresh3 Hf) as [Hf3 Hb3].
        destruct (Hfr Hf3) as [Hf' Hb']. split; [done|]. congruence.
Qed.

Lemma rollout_inv m w wb :
  rollout m w = (inr tt, wb) ->
  exists evs lps,
    trace wb = trace w ++ Reset :: evs /\
    episode_log_probs wb = episode_log_probs w ++ lps /\
    episode_raw_rewards wb = episode_raw_rewards w ++ step_rewards evs /\
    length lps = length (step_rewards evs) /\
    total_rewards wb = total_rewards w ++ [Rsum (step_rewards evs)] /\
    by_episode evs = (step_rewards evs, []) /\
    (length (step_rewards evs) <= m)%nat /\
    ((0 < m)%nat -> step_rewards evs <> []) /\
    policy wb = policy w /\
    ~ In Clear evs /\
    (fresh w -> fresh wb /\ bob wb = bob w).
Proof.
  unfold rollout. intros H.
  apply bind_inr in H as (state & w1 & H1 & H).
  apply reset_inv in H1 as (s & Hs & ->).
  apply bind_inr in H as (er & w2 & H2 & H).
  apply episode_steps_inv in H2
    as (evs & lps & Ht & Hl & Hr & Hlen & Her & Hby & Hle & Hne
        & Htot & Hpol & Hcl & Hfr).
  injection H as <-. simpl in *.
  exists evs, lps. rewrite Ht, <- app_assoc, Htot, Her, Rplus_0_l.
  split_and!; done.
Qed.

(** *** The policy update *)

Lemma update_policy_inv w wa :
  update_policy w = (inr tt, wa) ->
  exists loss,
    cat_sum (zip_with loss_term (episode_log_probs w)
               (discount_and_normailze_rewards discount_rate
                  (episode_raw_rewards w))) = inr loss /\
    wa = World (bob w) (next_id w) (trace w) (policy w)
               [] [] (total_rewards w) (env w) (rng w).
Proof.
  unfold update_policy. intros H.
  apply bind_inr in H as (lps & w1 & H1 & H). injection H1 as <- <-.
  apply bind_inr in H as (rs & w2 & H2 & H). injection H2 as <- <-.
  apply bind_inr in H as (loss & w3 & H3 & H). injection H3 as H3 <-.
  exists loss. split; [done|].
  apply bind_inr in H as ([] & w4 & H4 & H). injection H4 as <-.
  apply bind_inr in H as ([] & w5 & H5 & H).
  injection H5 as <-. by injection H as <-.
Qed.

Lemma update_policy_run w loss :
  cat_sum (zip_with loss_term (episode_log_probs w)
             (discount_and_normailze_rewards discount_rate
                (episode_raw_rewards w))) = inr loss ->
  update_policy w
  = (inr tt, World (bob w) (next_id w) (trace w) (policy w)
                   [] [] (total_rewards w) (env w) (rng w)).
Proof.
  intros Hloss.
  unfold update_policy, mbind, M_bind, gets, lift. by rewrite Hloss.
Qed.

(** An update that raises has raised in [torch.cat], on an empty list
    of terms, and has changed nothing. *)
Lemma update_policy_raise_inv w e wa :
  update_policy w = (inl e, wa) ->
  wa = w /\
  zip_with loss_term (episode_log_probs w)
    (discount_and_normailze_rewards discount_rate (episode_raw_rewards w)) = [].
Proof.
  unfold update_policy, mbind, M_bind, gets, lift.
  destruct (zip_with loss_term _ _) as [|t l]; simpl; intros H; [|done].
  by injection H as _ <-.
Qed.

Lemma update_policy_fresh w wa :
  update_policy w = (inr tt, wa) -> fresh w -> fresh wa.
Proof.
  intros H Hf. apply update_policy_inv in H as (loss & _ & ->). exact Hf.
Qed.

(** What an update that returns leaves of the rest of the world. *)
Lemma update_policy_frame w wa :
  update_policy w = (inr tt, wa) ->
  trace wa = trace w /\ total_rewards wa = total_rewards w /\
  episode_log_probs wa = [] /\ episode_raw_rewards wa = [] /\
  (forall h, policy w = Remote h -> policy wa = Remote h).
Proof.
  intros H. apply update_policy_inv in H as (loss & _ & ->). done.
Qed.

(** *** Episodes *)

Lemma episodes_inv n m : forall w w',
  episodes n m w = (inr tt, w') ->
  exists evs groups,
    trace w' = trace w ++ evs /\
    by_episode evs = ([], groups) /\
    length groups = n /\
    total_rewards w' = total_rewards w ++ map Rsum groups /\
    ((0 < m)%nat -> Forall (fun rs => rs <> []) groups) /\
    ~ In Clear evs /\
    (episode_log_probs w = [] -> episode_log_probs w' = []) /\
    (episode_raw_rewards w = [] -> episode_raw_rewards w' = []) /\
    (fresh w -> fresh w').
Proof.
  induction n as [|n IH]; intros w w' H.
  - injection H as <-. exists [], []. simpl. rewrite !app_nil_r.
    split_and!; try done. by intros [].
  - simpl in H. apply bind_inr in H as ([] & w2 & Hep & H).
    unfold episode in Hep. apply bind_inr in Hep as ([] & w1 & Hro & Hup).
    apply rollout_inv in Hro
      as (evs1 & lps & Ht1 & Hl1 & Hr1 & Hlen1 & Htot1 & Hby1 & Hle1 & Hne1
          & Hpol1 & Hcl1 & Hfr1).
    pose proof (update_policy_fresh _ _ Hup) as Hfr2.
    apply update_policy_frame in Hup as (Ht2 & Htot2 & Hlp2 & Hrr2 & _).
    apply IH in H as (evs & groups & Ht & Hby & Hlen & Htot & Hne & Hcl
                      & Hlp & Hrr & Hfr).
    exists ((Reset :: evs1) ++ evs), (step_rewards evs1 :: groups).
    split_and!.
    + by rewrite Ht, Ht2, Ht1, <- app_assoc.
    + rewrite (by_episode_app _ _ groups Hby). simpl. by rewrite Hby1.
    + simpl. by rewrite Hlen.
    + rewrite Htot, Htot2, Htot1, <- app_assoc. done.
    + intros Hm. constructor; [by apply Hne1 | by apply Hne].
    + apply not_in_clear_app; [|done]. intros [?|?]; done.
    + intros _. by apply Hlp.
    + intros _. by apply Hrr.
    + intros Hf. apply Hfr, Hfr2, Hfr1, Hf.
Qed.

(** *** The training cell *)

Lemma foldl_Rmax_upper xs : forall x,
  x <= foldl Rmax x xs /\ (forall t, In t xs -> t <= foldl Rmax x xs).
Proof.
  induction xs as [|y xs IH]; intros x; simpl.
  - split; [lra | tauto].
  - destruct (IH (Rmax x y)) as [H1 H2].
    pose proof (Rmax_l x y). pose proof (Rmax_r x y).
    split; [lra|]. intros t [->|Ht]; [lra | by apply H2].
Qed.

Lemma foldl_Rmax_in xs : forall x, In (foldl Rmax x xs) (x :: xs).
Proof.
  induction xs as [|y xs IH]; intros x; simpl; [by left|].
  destruct (IH (Rmax x y)) as [H|H]; [|by right; right].
  rewrite <- H. unfold Rmax. destruct (Rle_dec x y); [right; by left | by left].
Qed.

Lemma np_max_inv xs w mx w' :
  np_max xs w = (inr mx, w') -> w' = w /\ np_max xs w = (inr mx, w).
Proof. destruct xs; intros H; [done|]. by injection H as <- <-. Qed.

Lemma training_inv n m w r w' :
  training n m w = (inr r, w') ->
  exists evs groups mx,
    trace w' = trace w ++ evs ++ [Clear] /\
    by_episode evs = ([], groups) /\
    length groups = n /\
    total_rewards w' = map Rsum groups /\
    ((0 < m)%nat -> Forall (fun rs => rs <> []) groups) /\
    bob w' = ∅ /\
    np_max (total_rewards w') w' = (inr mx, w') /\
    r = (np_mean (total_rewards w'), mx).
Proof.
  unfold training. intros H.
  apply bind_inr in H as ([] & w1 & H1 & H). injection H1 as <-.
  apply bind_inr in H as ([] & w2 & H2 & H).
  unfold policy_send in H2.
  apply bind_inr in H2 as (l & w1' & Hl & H2). injection Hl as <- <-.
  simpl in H2. destruct (policy w) as [theta|]; [|done].
  apply bind_inr in H2 as (h & w1' & Hs & H2). rewrite send_run in Hs.
  injection Hs as <- <-. injection H2 as <-. simpl in *.
  apply bind_inr in H as ([] & w3 & H3 & H).
  apply episodes_inv in H3
    as (evs & groups & Ht & Hby & Hlen & Htot & Hne & Hcl & _ & _ & _).
  simpl in *.
  apply bind_inr in H as ([] & w4 & H4 & H).
  unfold policy_get in H4.
  apply bind_inr in H4 as (l & w3' & Hl & H4). injection Hl as <- <-.
  destruct (policy w3) as [|hp]; [done|].
  apply bind_inr in H4 as (o & w3' & Hg & H4).
  apply get_inv in Hg as [Ho ->].
  destruct o as [|theta']; [done|]. injection H4 as <-.
  apply bind_inr in H as ([] & w5 & H5 & H). injection H5 as <-.
  apply bind_inr in H as (totals & w6 & H6 & H). injection H6 as <- <-.
  apply bind_inr in H as (mx & w7 & H7 & H).
  apply np_max_inv in H7 as [-> H7].
  injection H as <- <-. simpl in *.
  exists ([Send (next_id w)] ++ evs ++ [Get hp]), groups, mx.
  split_and!; try done.
  - rewrite Ht, <- !app_assoc. done.
  - simpl. rewrite (by_episode_app evs [Get hp] []) by done.
    rewrite Hby. simpl. by rewrite app_nil_r.
Qed.

(** ** The claims about the run *)

(** The calls that [select_action] makes between [state.send(bob)] and
    [state.get()]: the forward pass on the state, and the retrieve of
    the probabilities. They return when the worker holds the policy. *)
Lemma select_action_calls x w h w1 :
  resident w ->
  send (Tensor x) w = (inr h, w1) ->
  exists w2, run_calls [Applying h; Retrieving (S h)] w1 = (inr tt, w2).
Proof.
  intros (hp & theta & Hp & Hth & Hf) Hs.
  rewrite send_run in Hs. injection Hs as <- <-.
  assert (Hne : hp <> next_id w).
  { intros ->. rewrite Hf in Hth by lia. done. }
  unfold run_calls, run_call, mbind, M_bind.
  erewrite policy_call_run; simpl;
    [|done|by rewrite lookup_insert_ne|by rewrite lookup_insert_eq].
  erewrite get_run by (simpl; apply lookup_insert_eq). by eexists.
Qed.

Lemma select_action_calls_other h :
  ~ In (Retrieving h) [Applying h; Retrieving (S h)].
Proof. intros [?|[H|[]]]; [done|]. injection H. lia. Qed.

(** A call that returns gives out no handle below [next_id], and it
    leaves alone every handle it does not retrieve. *)
Lemma run_call_inv c w w' :
  run_call c w = (inr tt, w') ->
  (next_id w <= next_id w')%nat /\
  forall i, (i < next_id w)%nat -> c <> Retrieving i -> bob w' !! i = bob w !! i.
Proof.
  destruct c as [o|h_state|h]; simpl; intros H;
    apply bind_inr in H as (a & w1 & H1 & H); injection H as <-.
  - rewrite send_run in H1. injection H1 as <- <-. simpl.
    split; [lia|]. intros i Hi _. apply lookup_insert_ne. lia.
  - apply policy_call_inv in H1 as (hp & theta & x & _ & _ & _ & _ & ->). simpl.
    split; [lia|]. intros i Hi _. apply lookup_insert_ne. lia.
  - apply get_inv in H1 as [_ ->]. simpl.
    split; [lia|]. intros i Hi Hne. apply lookup_delete_ne. congruence.
Qed.

Lemma run_calls_inv cs : forall w w',
  run_calls cs w = (inr tt, w') ->
  (next_id w <= next_id w')%nat /\
  forall i, (i < next_id w)%nat -> ~ In (Retrieving i) cs ->
            bob w' !! i = bob w !! i.
Proof.
  induction cs as [|c cs IH]; intros w w' H.
  - by injection H as <-.
  - simpl in H. apply bind_inr in H as ([] & w1 & H1 & H).
    apply run_call_inv in H1 as [Hn1 Hb1]. apply IH in H as [Hn Hb].
    split; [lia|]. intros i Hi Hin.
    rewrite Hb; [apply Hb1; [done|] | lia |].
    + intros ->. apply Hin. by left.
    + intros ?. apply Hin. by right.
Qed.

(** A handle that was given out and is held no longer is never held
    again, whatever is called afterwards. *)
Lemma run_calls_gone h cs : forall w w',
  run_calls cs w = (inr tt, w') ->
  (h < next_id w)%nat -> bob w !! h = None ->
  (h < next_id w')%nat /\ bob w' !! h = None.
Proof.
  induction cs as [|c cs IH]; intros w w' H Hh Hb.
  - by injection H as <-.
  - simpl in H. apply bind_inr in H as ([] & w1 & H1 & H).
    assert (Hc : c <> Retrieving h).
    { intros ->. simpl in H1. apply bind_inr in H1 as (o & w2 & H2 & _).
      apply get_inv in H2 as [H2 _]. congruence. }
    apply run_call_inv in H1 as [Hn1 Hb1].
    apply (IH w1 w' H); [lia|]. by rewrite Hb1.
Qed.

(** C5: a value sent to the worker gets a handle that the worker did
    not hold, and the send touches no other handle. However many values
    are sent, forward passes applied and other handles retrieved in
    between, a retrieve on the handle returns the value that was sent
    and changes nothing else that the worker holds. The retrieve ends
    the worker's ownership of the handle: whatever is called afterwards,
    no send gives the handle out again, and a second retrieve on it
    fails with [NotFoundError]. *)
Theorem send_then_get (o : object) (w : world) :
  fresh w ->
  exists h w1,
    send o w = (inr h, w1) /\
    bob w !! h = None /\
    (forall i, i <> h -> bob w1 !! i = bob w !! i) /\
    forall cs w2,
      ~ In (Retrieving h) cs ->
      run_calls cs w1 = (inr tt, w2) ->
      exists w3,
        get h w2 = (inr o, w3) /\
        (forall i, i <> h -> bob w3 !! i = bob w2 !! i) /\
        bob w3 !! h = None /\
        forall cs' w4,
          run_calls cs' w3 = (inr tt, w4) ->
          get h w4 = (inl NotFoundError, w4).
Proof.
  intros Hf. eexists _, _. split; [apply send_run|]. simpl.
  split; [by apply Hf|].
  split; [intros i Hi; by apply lookup_insert_ne|].
  intros cs w2 Hcs H.
  apply run_calls_inv in H as [Hn Hb]. simpl in Hn, Hb.
  assert (H2 : bob w2 !! next_id w = Some o).
  { rewrite Hb by (done || lia). apply lookup_insert_eq. }
  eexists. split; [by apply get_run|]. simpl.
  split; [intros i Hi; by apply lookup_delete_ne|].
  split; [apply lookup_delete_eq|].
  intros cs' w4 H'. apply get_missing.
  eapply (run_calls_gone (next_id w)) in H' as [_ H']; [done| |]; simpl.
  - lia.
  - apply lookup_delete_eq.
Qed.

(** The same for any handle the worker holds, however long ago the
    value was sent. *)
Lemma get_then_get h o w :
  bob w !! h = Some o ->
  exists w', get h w = (inr o, w') /\ bob w' !! h = None /\
             get h w' = (inl NotFoundError, w').
Proof.
  intros H. eexists. split; [by apply get_run|]. simpl.
  split; [apply lookup_delete_eq|].
  apply get_missing. simpl. apply lookup_delete_eq.
Qed.

(** C6 (as the code has it): an action-selection step that returns
    crosses the ownership boundary three times: it sends the state, it
    retrieves the probabilities, and it retrieves the state again; that
    is one send and two retrieves, and nothing else moves. *)
Theorem select_action_crossings state w action w' :
  select_action state w = (inr action, w') ->
  exists h_state h_probs evs,
    trace w' = trace w ++ evs /\
    evs = [Send h_state; Get h_probs; Get h_state] /\
    sends evs = 1%nat /\ retrieves evs = 2%nat.
Proof.
  intros H. apply select_action_inv in H
    as (hp & theta & g & lp & _ & _ & _ & _ & _ & ->).
  eexists (next_id w), (S (next_id w)), _. simpl. split_and!; done.
Qed.

(** C7 (as the code has it): a run of the training cell that completes
    has cleared the worker as the last thing it did to it, and the
    worker owns nothing afterwards. *)
Theorem completed_run_clears_worker n m w r w' :
  training n m w = (inr r, w') ->
  bob w' = ∅ /\ exists evs, trace w' = trace w ++ evs ++ [Clear].
Proof.
  intros H. apply training_inv in H
    as (evs & groups & mx & Ht & _ & _ & _ & _ & Hb & _).
  split; [done|]. by exists evs.
Qed.

(** C9: the two numbers of the summary are the arithmetic mean and the
    maximum of the recorded totals, and the total of each episode is the
    plain sum of the rewards the environment paid in that episode. *)
Theorem summary_is_mean_and_max n m w avg mx w' :
  training n m w = (inr (avg, mx), w') ->
  let totals := total_rewards w' in
  avg = Some (Rsum totals / INR (length totals)) /\
  In mx totals /\ (forall t, In t totals -> t <= mx) /\
  exists evs groups,
    trace w' = trace w ++ evs ++ [Clear] /\
    by_episode evs = ([], groups) /\
    length groups = n /\
    totals = map Rsum groups.
Proof.
  intros H totals. apply training_inv in H
    as (evs & groups & mx' & Ht & Hby & Hlen & Htot & _ & _ & Hmx & Hr).
  injection Hr as -> <-. subst totals.
  destruct (total_rewards w') as [|t ts] eqn:Htotals; [done|].
  injection Hmx as <-.
  split_and!.
  - unfold np_mean. apply fdiv_finite, not_0_INR. done.
  - apply foldl_Rmax_in.
  - destruct (foldl_Rmax_upper ts t) as [H1 H2].
    intros x [<-|Hx]; [done | by apply H2].
  - by exists evs, groups.
Qed.

(** C10: in an episode every reward the environment pays, that of the
    terminal step included, is appended to the raw rewards before [done]
    is looked at; when [update_policy] is reached the raw rewards are
    not empty, and the total of the episode is the sum of all of them. *)
Theorem rewards_recorded_before_done_check w wb :
  rollout max_steps w = (inr tt, wb) ->
  exists evs,
    trace wb = trace w ++ Reset :: evs /\
    episode_raw_rewards wb = episode_raw_rewards w ++ step_rewards evs /\
    (forall action reward d,
       In (Step action reward d) evs -> In reward (episode_raw_rewards wb)) /\
    (1 <= steps evs)%nat /\
    episode_raw_rewards wb <> [] /\
    total_rewards wb = total_rewards w ++ [Rsum (step_rewards evs)].
Proof.
  intros H. apply rollout_inv in H
    as (evs & lps & Ht & _ & Hr & _ & Htot & _ & _ & Hne & _).
  assert (Hne' : step_rewards evs <> []) by (apply Hne; unfold max_steps; lia).
  exists evs. split_and!; try done.
  - intros a r d Hin. rewrite Hr. apply in_or_app. right.
    by apply (in_step_rewards _ a r d).
  - rewrite steps_length. destruct (step_rewards evs); simpl; [done | lia].
  - rewrite Hr. by destruct (episode_raw_rewards w), (step_rewards evs).
Qed.

End Execution.

(** ** The network *)

Section Network.
Import Autograd.
Local Open Scope R_scope.

Lemma forward_length theta x : length (Policy.forward theta x) = 2%nat.
Proof.
  unfold Policy.forward, Policy.softmax, Policy.output, Policy.linear.
  by rewrite !length_map.
Qed.

Lemma eps_bounds : 0 < eps <= 1 / 2.
Proof.
  unfold eps. assert (H : 2 <= 2 ^ 23).
  { change (2 ^ 23) with (2 * 2 ^ 22). assert (1 <= 2 ^ 22); [|lra].
    apply pow_R1_Rle. lra. }
  split.
  - apply Rinv_0_lt_compat. lra.
  - apply (Rmult_le_reg_r (2 ^ 23)); [lra|]. rewrite Rinv_l by lra. lra.
Qed.

(** A clamped probability lies between the two bounds. *)
Lemma dclamp_bounds q :
  eps <= val (dclamp eps (1 - eps) q) <= 1 - eps.
Proof.
  pose proof eps_bounds. unfold dclamp.
  destruct (Rlt_dec (val q) eps); [simpl; lra|].
  destruct (Rlt_dec (1 - eps) (val q)); simpl; lra.
Qed.

(** The logarithm of a finite probability is a finite number, between
    [ln eps] and [ln (1 - eps)]; that is below zero. *)
Lemma log_prob_finite p action lp :
  log_prob (Some p) action = inr lp ->
  exists d, lp = Some d /\ ln eps <= val d <= ln (1 - eps) /\ val d < 0.
Proof.
  unfold log_prob. destruct (p !! action) as [q|]; [|done].
  intros H. injection H as <-. eexists. split; [done|]. simpl.
  pose proof eps_bounds. pose proof (dclamp_bounds q) as [H1 H2].
  set (c := val (dclamp eps (1 - eps) q)) in *.
  assert (Hlo : ln eps <= ln c).
  { destruct (Req_dec eps c) as [->|Hne]; [lra|].
    left. apply ln_increasing; lra. }
  assert (Hhi : ln c <= ln (1 - eps)).
  { destruct (Req_dec c (1 - eps)) as [->|Hne]; [lra|].
    left. apply ln_increasing; lra. }
  assert (ln (1 - eps) < 0) by (rewrite <- ln_1; apply ln_increasing; lra).
  lra.
Qed.

(** With all the weights at zero both actions have probability 1/2. *)
Example forward_zero_weights :
  map val (Policy.forward Stub.theta0 (map dconst [0; 0; 0; 0])) = [1 / 2; 1 / 2].
Proof.
  unfold Policy.forward, Policy.softmax, Policy.output, Policy.relu,
    Policy.input, Policy.linear, drelu. simpl.
  repeat (destruct (Rlt_dec _ _) as [Hlt|_];
          [exfalso; revert Hlt; simpl; lra|]).
  simpl.
  replace (0 * 0 + (0 * 0 + (0 * 0 + (0 * 0 + 0)))) with 0 by lra.
  rewrite exp_0. f_equal; [|f_equal]; lra.
Qed.


End Network.

(** ** The run returns

    When the environment and the sampler never raise, and the sampler
    draws an action in range, the training cell returns. *)

Section Progress.
Context `{C : Collaborators}.
Import Num Autograd Trace.
Local Open Scope R_scope.

Hypothesis env_reset_total : forall s, exists r, env_reset s = inr r.
Hypothesis env_step_total : forall s a, exists r, env_step s a = inr r.
Hypothesis sampler_total : forall g p,
  exists a g', multinomial g p = inr (a, g') /\ (a < 2)%nat.

Lemma select_action_progress state w :
  resident w ->
  exists action w', select_action state w = (inr action, w') /\ resident w'.
Proof.
  intros (h & theta & Hp & Hth & Hf).
  set (probs := remote_forward theta (Some (map dconst state))).
  destruct (sampler_total (rng w) (map val <$> probs)) as (a & g & Hg & Ha).
  assert (exists lp, log_prob probs a = inr lp) as [lp Hlp].
  { unfold log_prob. destruct probs as [p|] eqn:Hprobs; [|by eexists].
    assert (Hlen : length p = 2%nat).
    { unfold probs, remote_forward in Hprobs. destruct theta; [|done].
      injection Hprobs as <-. apply forward_length. }
    destruct (lookup_lt_is_Some_2 p a) as [q ->]; [lia|]. by eexists. }
  eexists a, _. split.
  - by apply (select_action_run state w h theta a g lp).
  - exists h, theta. simpl. split_and!; try done.
    intros i Hi. simpl in Hi. apply Hf. lia.
Qed.

Lemma episode_steps_progress n : forall state er w,
  resident w ->
  exists er' w', episode_steps n state er w = (inr er', w') /\ resident w'.
Proof.
  induction n as [|n IH]; intros state er w Hw.
  - by exists er, w.
  - destruct (select_action_progress state w Hw) as (a & w1 & H1 & Hw1).
    destruct (env_step_total (env w1) a) as ([[[state' reward] d] s] & Hs).
    set (w3 := World (bob w1) (next_id w1) (trace w1 ++ [Step a reward d])
                     (policy w1) (episode_log_probs w1)
                     (episode_raw_rewards w1 ++ [reward]) (total_rewards w1)
                     s (rng w1)).
    assert (Hw3 : resident w3).
    { destruct Hw1 as (h & theta & ? & ? & ?). by exists h, theta. }
    assert (Hpre : forall k : M R,
      (episode_steps (S n) state er) w
      = (if d then mret (er + reward) else episode_steps n state' (er + reward)) w3).
    { intros _. simpl. unfold mbind, M_bind. rewrite H1.
      unfold step. rewrite Hs. simpl. by destruct d. }
    rewrite (Hpre (mret 0)). destruct d.
    + by exists (er + reward), w3.
    + apply IH, Hw3.
Qed.

Lemma rollout_progress m w :
  resident w -> exists wb, rollout m w = (inr tt, wb) /\ resident wb.
Proof.
  intros Hw. destruct (env_reset_total (env w)) as ([state s] & Hs).
  set (w1 := log Reset (set_env s w)).
  assert (Hw1 : resident w1).
  { destruct Hw as (h & theta & ? & ? & ?). by exists h, theta. }
  destruct (episode_steps_progress m state 0 w1 Hw1) as (er & w2 & H2 & Hw2).
  eexists. split.
  - unfold rollout, mbind, M_bind, reset. rewrite Hs.
    fold w1. rewrite H2. done.
  - destruct Hw2 as (h & theta & ? & ? & ?). by exists h, theta.
Qed.

Lemma normalised_length gamma rs :
  length (discount_and_normailze_rewards gamma rs) = length rs.
Proof.
  unfold discount_and_normailze_rewards, normalize, torch_tensor.
  by rewrite !length_map, discount_rewards_length.
Qed.

Lemma cat_sum_progress (lps : list (option dual)) (scores : tensor) :
  lps <> [] -> scores <> [] ->
  exists loss, cat_sum (zip_with loss_term lps scores) = inr loss.
Proof. destruct lps, scores; try done. intros _ _. by eexists. Qed.

Lemma update_policy_progress w :
  resident w ->
  episode_log_probs w <> [] -> episode_raw_rewards w <> [] ->
  exists wa, update_policy w = (inr tt, wa) /\ resident wa.
Proof.
  intros (h & theta & Hp & Hth & Hf) Hl Hr.
  destruct (cat_sum_progress (episode_log_probs w)
              (discount_and_normailze_rewards discount_rate (episode_raw_rewards w)))
    as [loss Hloss]; [done| |].
  { intros H. apply (f_equal length) in H. rewrite normalised_length in H.
    by destruct (episode_raw_rewards w). }
  eexists. split; [by apply (update_policy_run w loss)|].
  by exists h, theta.
Qed.

Lemma episode_progress m w :
  (0 < m)%nat -> resident w ->
  exists w', episode m w = (inr tt, w') /\ resident w'.
Proof.
  intros Hm Hw. destruct (rollout_progress m w Hw) as (wb & Hro & Hwb).
  destruct (rollout_inv m w wb Hro)
    as (evs & lps & _ & Hl & Hr & Hlen & _ & _ & _ & Hne & _).
  specialize (Hne Hm).
  destruct (update_policy_progress wb Hwb) as (wa & Hup & Hwa).
  - rewrite Hl. destruct lps, (step_rewards evs); try done.
    by destruct (episode_log_probs w).
  - rewrite Hr. by destruct (episode_raw_rewards w), (step_rewards evs).
  - exists wa. split; [|done]. unfold episode, mbind, M_bind. by rewrite Hro.
Qed.

Lemma episodes_progress n m : forall w,
  (0 < m)%nat -> resident w ->
  exists w', episodes n m w = (inr tt, w') /\ resident w'.
Proof.
  induction n as [|n IH]; intros w Hm Hw; [by exists w|].
  destruct (episode_progress m w Hm Hw) as (w1 & H1 & Hw1).
  destruct (IH w1 Hm Hw1) as (w2 & H2 & Hw2).
  exists w2. split; [|done]. simpl. unfold mbind, M_bind. by rewrite H1.
Qed.

(** The training cell returns when it is started with a local policy
    and asked for at least one episode of at least one step. *)
Lemma training_progress n m w theta :
  (0 < n)%nat -> (0 < m)%nat ->
  policy w = Local theta -> fresh w ->
  exists r w', training n m w = (inr r, w').
Proof.
  intros Hn Hm Hp Hf.
  set (w1 := World (<[next_id w := Parameters theta]> (bob w)) (S (next_id w))
                   (trace w ++ [Send (next_id w)]) (Remote (next_id w))
                   (episode_log_probs w) (episode_raw_rewards w) []
                   (env w) (rng w)).
  assert (Hw1 : resident w1).
  { exists (next_id w), theta. simpl. split_and!; try done.
    - apply lookup_insert_eq.
    - intros i Hi. simpl in *. rewrite lookup_insert_ne by lia. apply Hf. lia. }
  destruct (episodes_progress n m w1 Hm Hw1) as (w2 & H2 & (h & theta' & Hp2 & Hth2 & Hf2)).
  destruct (episodes_inv n m w1 w2 H2)
    as (evs & groups & _ & _ & Hlen & Htot & _).
  simpl in Htot.
  destruct groups as [|rs groups]; [simpl in Hlen; lia|].
  assert (Hsend : policy_send (set_total_rewards [] w) = (inr tt, w1)).
  { unfold policy_send, mbind, M_bind, gets. simpl. by rewrite Hp. }
  assert (Hget : exists w3, policy_get w2 = (inr tt, w3) /\
                            total_rewards w3 = total_rewards w2).
  { unfold policy_get, mbind, M_bind, gets. rewrite Hp2.
    rewrite (get_run h (Parameters theta')) by done. by eexists. }
  destruct Hget as (w3 & Hget & Htot3).
  eexists _, _. unfold training.
  apply bind_inr. eexists tt, _. split; [reflexivity|].
  apply bind_inr. exists tt, w1. split; [exact Hsend|].
  apply bind_inr. exists tt, w2. split; [exact H2|].
  apply bind_inr. exists tt, w3. split; [exact Hget|].
  apply bind_inr. eexists tt, _. split; [reflexivity|].
  apply bind_inr. eexists _, _. split; [reflexivity|].
  simpl. rewrite Htot3, Htot. simpl. reflexivity.
Qed.

End Progress.

(** ** The trajectory buffer *)

Section Buffer.
Context `{C : Collaborators}.
Import Num Autograd Trace.
Local Open Scope R_scope.

(** When [update_policy] is called with as many log-probabilities as
    rewards, it leaves both buffers empty, whether it returns or
    raises: it raises only when there is nothing in them. *)
Lemma update_policy_clears w r wa :
  length (episode_log_probs w) = length (episode_raw_rewards w) ->
  update_policy w = (r, wa) ->
  episode_log_probs wa = [] /\ episode_raw_rewards wa = [].
Proof.
  intros Hlen H. destruct r as [e|[]].
  - apply update_policy_raise_inv in H as [-> Hz].
    apply (f_equal length) in Hz.
    rewrite length_zip_with, normalised_length, <- Hlen, Nat.min_id in Hz.
    simpl in Hz. split; apply nil_length_inv; lia.
  - by apply update_policy_frame in H as (_ & _ & ? & ? & _).
Qed.

(** C4: in every episode of a run the two sequences of the trajectory
    buffer have the same length when [update_policy] is called, the
    number of environment steps of the episode, and after the call both
    are empty, whether the update returned or raised. *)
Theorem buffers_aligned_then_cleared n m w0 wi wb :
  episode_log_probs w0 = [] ->
  episode_raw_rewards w0 = [] ->
  episodes n m w0 = (inr tt, wi) ->
  rollout m wi = (inr tt, wb) ->
  exists evs,
    trace wb = trace wi ++ Reset :: evs /\
    length (episode_log_probs wb) = steps evs /\
    length (episode_raw_rewards wb) = steps evs /\
    forall r wa, update_policy wb = (r, wa) ->
                 episode_log_probs wa = [] /\ episode_raw_rewards wa = [].
Proof.
  intros Hlp0 Hrr0 Hn Hro.
  apply episodes_inv in Hn as (evs0 & groups & _ & _ & _ & _ & _ & _ & Hlp & Hrr & _).
  apply rollout_inv in Hro
    as (evs & lps & Ht & Hl & Hr & Hlen & _).
  exists evs.
  assert (Hl' : length (episode_log_probs wb) = steps evs).
  { rewrite Hl, Hlp by done. simpl. by rewrite steps_length. }
  assert (Hr' : length (episode_raw_rewards wb) = steps evs).
  { rewrite Hr, Hrr by done. simpl. by rewrite steps_length. }
  split_and!; try done.
  intros r wa H. apply (update_policy_clears wb r wa); [congruence | done].
Qed.

End Buffer.

(** ** One episode in the five-step environment *)

Section FiveSteps.
Import Num Autograd Trace.
Local Open Scope R_scope.

Variable G : Type.
Variable sampler : G -> option (list R) -> error + (nat * G).
Variable obs : nat -> list R.

Let stub : Collaborators := Stub.five_steps_env G sampler obs.

Lemma five_steps_loop n : forall j er (w w' : @world stub) er' h theta,
  episode_steps n (obs j) er w = (inr er', w') ->
  (env w < 5)%nat -> (5 - env w <= n)%nat ->
  policy w = Remote h -> bob w !! h = Some (Parameters (Some theta)) ->
  fresh w ->
  exists lps,
    episode_log_probs w' = episode_log_probs w ++ map Some lps /\
    length lps = (5 - env w)%nat /\
    episode_raw_rewards w' = episode_raw_rewards w ++ replicate (5 - env w) 1.
Proof.
  induction n as [|n IH]; intros j er w w' er' h theta H Hk Hn Hp Hth Hf;
    [lia|].
  simpl in H.
  apply bind_inr in H as (action & w1 & H1 & H).
  apply select_action_inv in H1
    as (h' & theta' & g & lp & Hp' & _ & Hth' & Hg & Hlp & ->).
  assert (h' = h) as -> by congruence.
  assert (theta' = Some theta) as -> by congruence.
  simpl in Hg, Hlp.
  destruct (log_prob_finite _ _ _ Hlp) as (d & -> & _).
  apply bind_inr in H as ([[state' reward] dn] & w2 & H2 & H).
  apply step_inv in H2 as (s & Hs & ->). simpl in Hs.
  injection Hs as <- <- Hdone <-. simpl in H.
  apply bind_inr in H as ([] & w3 & H3 & H). injection H3 as <-.
  destruct dn.
  - change (Nat.leb 5 (S (env w)) = true) in Hdone.
    apply Nat.leb_le in Hdone. injection H as <- <-.
    exists [d]. simpl. replace (5 - env w)%nat with 1%nat by lia.
    split_and!; done.
  - change (Nat.leb 5 (S (env w)) = false) in Hdone.
    apply Nat.leb_gt in Hdone.
    eapply (IH (S (env w)) _ _ _ _ h theta) in H; simpl; try done; try lia.
    + destruct H as (lps & Hl & Hlen & Hr).
      exists (d :: lps). simpl in *.
      replace (5 - env w)%nat with (S (5 - S (env w))) by lia.
      rewrite Hl, Hr, Hlen, <- !app_assoc. simpl.
      split_and!; done.
    + rewrite fresh_restore by (apply Hf; lia). done.
    + intros i Hi. simpl in *. rewrite fresh_restore by (apply Hf; lia).
      apply Hf. lia.
Qed.

Lemma five_steps_rollout (w wb : @world stub) h theta :
  rollout max_steps w = (inr tt, wb) ->
  policy w = Remote h -> bob w !! h = Some (Parameters (Some theta)) ->
  fresh w ->
  bob wb = bob w /\ policy wb = policy w /\
  exists lps,
    episode_log_probs wb = episode_log_probs w ++ map Some lps /\
    length lps = 5%nat /\
    episode_raw_rewards wb = episode_raw_rewards w ++ [1; 1; 1; 1; 1].
Proof.
  intros H Hp Hth Hf.
  destruct (rollout_inv _ _ _ H)
    as (_ & _ & _ & _ & _ & _ & _ & _ & _ & _ & Hpol & _ & Hfr).
  destruct (Hfr Hf) as [_ Hb]. split; [done|]. split; [done|].
  unfold rollout in H.
  apply bind_inr in H as (state & w1 & H1 & H).
  apply reset_inv in H1 as (s & Hs & ->). simpl in Hs.
  injection Hs as <- <-.
  apply bind_inr in H as (er & w2 & H2 & H).
  injection H as <-. simpl.
  eapply (five_steps_loop _ O _ _ _ _ h theta) in H2; simpl; try done;
    unfold max_steps; try lia.
Qed.



End FiveSteps.

(** ** Concrete runs *)

Section Runs.
Import Num Autograd Trace Stub.
Local Open Scope R_scope.

Lemma five_steps_reset_total :
  forall s, exists r, @env_reset five_steps s = inr r.
Proof. intros s. by eexists. Qed.

Lemma five_steps_step_total :
  forall s a, exists r, @env_step five_steps s a = inr r.
Proof. intros s a. by eexists. Qed.

Lemma five_steps_sampler_total :
  forall g p, exists a g', @multinomial five_steps g p = inr (a, g') /\ (a < 2)%nat.
Proof. intros g p. exists O, g. split; [done | lia]. Qed.

Lemma sent_fresh : fresh sent.
Proof. intros h Hh. simpl in *. apply lookup_singleton_ne. lia. Qed.

Lemma sent_resident : resident sent.
Proof.
  exists O, (Some theta0). split_and!; [done | apply lookup_singleton_eq |].
  apply sent_fresh.
Qed.

Lemma initial_fresh `{C : Collaborators} theta e g : fresh (initial_world theta e g).
Proof. intros h _. apply lookup_empty. Qed.

(** The first step of the broken environment ends the run; the worker
    still holds the parameters and one log-probability is left in the
    buffer. *)
Lemma broken_run n m :
  exists lp w,
    @training broken (S n) (S m) broken_start
    = (inl EnvironmentError, w) /\
    w = @World broken (<[O := Parameters (Some theta0)]> ∅) 3
          [Send O; Reset; Send 1%nat; Get 2%nat; Get 1%nat] (Remote O)
          [lp] [] [] tt tt.
Proof.
  set (x := map dconst [0; 0; 0; 0]).
  assert (exists lp, log_prob (remote_forward (Some theta0) (Some x)) O = inr lp)
    as [lp Hlp].
  { simpl. pose proof (forward_length theta0 x) as Hlen.
    destruct (Policy.forward theta0 x) as [|q l]; [done|]. by eexists. }
  exists lp. eexists. split; [|reflexivity].
  unfold training.
  apply bind_inl. right. eexists tt, _. split; [reflexivity|].
  apply bind_inl. right. eexists tt, _. split; [reflexivity|].
  apply bind_inl. left. simpl.
  apply bind_inl. left. unfold episode.
  apply bind_inl. left. unfold rollout.
  apply bind_inl. right. eexists _, _. split; [reflexivity|].
  apply bind_inl. left. simpl.
  apply bind_inl. right. eexists O, _. split.
  { eapply (@select_action_run broken _ _ O (Some theta0) O tt lp); try done.
    intros h Hh. simpl in *. rewrite lookup_insert_ne by lia. apply lookup_empty. }
  apply bind_inl. left. reflexivity.
Qed.

(** C6, the claim as stated fails: the step retrieves twice. *)
Lemma select_action_retrieves_twice :
  exists action w' evs,
    @select_action five_steps [0; 0; 0; 0] sent = (inr action, w') /\
    trace w' = trace sent ++ evs /\
    retrieves evs <> 1%nat.
Proof.
  destruct (@select_action_progress five_steps five_steps_sampler_total
              [0; 0; 0; 0] sent sent_resident) as (a & w' & H & _).
  exists a, w'. pose proof H as H'.
  apply select_action_inv in H'
    as (hp & theta & g & lp & _ & _ & _ & _ & _ & ->).
  eexists. split; [exact H|]. split; [reflexivity|]. simpl. lia.
Qed.

(** C7, the claim as stated fails: when the environment raises, the
    notebook's run ends without clearing the worker, which still owns
    the policy's parameters. *)
Lemma failed_run_leaves_worker :
  exists w,
    @main broken broken_start = (inl EnvironmentError, w) /\
    ~ In Clear (trace w) /\
    bob w !! O = Some (Parameters (Some theta0)).
Proof.
  destruct (broken_run 499 999) as (lp & w & Hrun & Hw).
  exists w. split; [exact Hrun|]. subst w. simpl. split.
  - intros [?|[?|[?|[?|[?|[]]]]]]; done.
  - apply lookup_insert_eq.
Qed.

(** In the five-step environment one episode and its update return. *)
Lemma five_steps_episode_runs :
  exists wb wa,
    @rollout five_steps max_steps sent = (inr tt, wb) /\
    update_policy wb = (inr tt, wa).
Proof.
  destruct (@rollout_progress five_steps five_steps_reset_total
              five_steps_step_total five_steps_sampler_total
              max_steps sent sent_resident) as (wb & Hro & Hwb).
  destruct (@five_steps_rollout _ _ _ sent wb O theta0 Hro eq_refl
              (lookup_singleton_eq _ _) sent_fresh)
    as (_ & _ & lps0 & Hl0 & Hlen0 & Hr0).
  assert (Hne1 : episode_log_probs wb <> []).
  { rewrite Hl0. by destruct lps0. }
  assert (Hne2 : episode_raw_rewards wb <> []) by (by rewrite Hr0).
  destruct (@update_policy_progress five_steps wb Hwb Hne1 Hne2)
    as (wa & Hup & _).
  exists wb, wa. split; [exact Hro | exact Hup].
Qed.

(** *** The theorems at concrete runs *)

Lemma send_then_get_witness :
  exists h w1 w2 w3,
    @send five_steps (Tensor (Some (map dconst [0; 0; 0; 0]))) sent = (inr h, w1) /\
    run_calls [Applying h; Retrieving (S h)] w1 = (inr tt, w2) /\
    get h w2 = (inr (Tensor (Some (map dconst [0; 0; 0; 0]))), w3) /\
    get h w3 = (inl NotFoundError, w3).
Proof.
  destruct (@send_then_get five_steps (Tensor (Some (map dconst [0; 0; 0; 0])))
              sent sent_fresh) as (h & w1 & Hs & _ & _ & Hcs).
  destruct (@select_action_calls five_steps _ sent h w1 sent_resident Hs)
    as (w2 & H2).
  destruct (Hcs _ w2 (@select_action_calls_other h) H2) as (w3 & Hg & _ & _ & Hgone).
  exists h, w1, w2, w3. split; [exact Hs|]. split; [exact H2|].
  split; [exact Hg|]. exact (Hgone [] w3 eq_refl).
Defined.

Lemma buffers_aligned_then_cleared_witness :
  exists wi wb evs r wa,
    @episodes five_steps 1 max_steps sent = (inr tt, wi) /\
    rollout max_steps wi = (inr tt, wb) /\
    trace wb = trace wi ++ Reset :: evs /\
    length (episode_log_probs wb) = steps evs /\
    length (episode_raw_rewards wb) = steps evs /\
    update_policy wb = (r, wa) /\
    episode_log_probs wa = [] /\ episode_raw_rewards wa = [].
Proof.
  assert (Hm : (0 < max_steps)%nat) by (unfold max_steps; lia).
  destruct (@episodes_progress five_steps five_steps_reset_total
              five_steps_step_total five_steps_sampler_total
              1 max_steps sent Hm sent_resident) as (wi & Hi & Hwi).
  destruct (@rollout_progress five_steps five_steps_reset_total
              five_steps_step_total five_steps_sampler_total
              max_steps wi Hwi) as (wb & Hb & _).
  destruct (@buffers_aligned_then_cleared five_steps 1 max_steps sent wi wb
              eq_refl eq_refl Hi Hb) as (evs & Ht & Hl & Hr & Hup).
  assert (Hwa : @update_policy five_steps wb
                = ((@update_policy five_steps wb).1, (@update_policy five_steps wb).2))
    by apply surjective_pairing.
  destruct (Hup _ _ Hwa) as [Hla Hra].
  eexists wi, wb, evs, _, _. split; [exact Hi|]. split; [exact Hb|].
  split; [exact Ht|]. split; [exact Hl|]. split; [exact Hr|].
  split; [exact Hwa|]. split; [exact Hla | exact Hra].
Defined.

Lemma select_action_crossings_witness :
  exists action w' h_state h_probs,
    @select_action five_steps [0; 0; 0; 0] sent = (inr action, w') /\
    trace w' = trace sent ++ [Send h_state; Get h_probs; Get h_state].
Proof.
  destruct (@select_action_progress five_steps five_steps_sampler_total
              [0; 0; 0; 0] sent sent_resident) as (a & w' & H & _).
  destruct (@select_action_crossings five_steps _ _ _ _ H)
    as (hs & hp & evs & Ht & Hevs & _).
  exists a, w', hs, hp. split; [exact H|]. rewrite <- Hevs. exact Ht.
Defined.

Lemma completed_run_clears_worker_witness :
  exists r w',
    @main five_steps start = (inr r, w') /\ bob w' = ∅.
Proof.
  assert (Hn : (0 < n_episodes)%nat) by (unfold n_episodes; lia).
  assert (Hm : (0 < max_steps)%nat) by (unfold max_steps; lia).
  destruct (@training_progress five_steps five_steps_reset_total
              five_steps_step_total five_steps_sampler_total
              n_episodes max_steps start (Some theta0) Hn Hm eq_refl
              (initial_fresh _ _ _))
    as (r & w' & H).
  destruct (@completed_run_clears_worker five_steps _ _ _ _ _ H) as [Hb _].
  exists r, w'. split; [exact H | exact Hb].
Defined.

Lemma summary_is_mean_and_max_witness :
  exists avg mx w',
    @main five_steps start = (inr (avg, mx), w') /\
    avg = Some (Rsum (total_rewards w') / INR (length (total_rewards w'))) /\
    In mx (total_rewards w').
Proof.
  assert (Hn : (0 < n_episodes)%nat) by (unfold n_episodes; lia).
  assert (Hm : (0 < max_steps)%nat) by (unfold max_steps; lia).
  destruct (@training_progress five_steps five_steps_reset_total
              five_steps_step_total five_steps_sampler_total
              n_episodes max_steps start (Some theta0) Hn Hm eq_refl
              (initial_fresh _ _ _))
    as ([avg mx] & w' & H).
  destruct (@summary_is_mean_and_max five_steps _ _ _ _ _ _ H)
    as (Havg & Hin & _).
  exists avg, mx, w'. split; [exact H|]. split; [exact Havg | exact Hin].
Defined.

Lemma rewards_recorded_before_done_check_witness :
  exists wb,
    @rollout five_steps max_steps sent = (inr tt, wb) /\
    episode_raw_rewards wb <> [].
Proof.
  destruct (@rollout_progress five_steps five_steps_reset_total
              five_steps_step_total five_steps_sampler_total
              max_steps sent sent_resident) as (wb & Hro & _).
  destruct (@rewards_recorded_before_done_check five_steps _ _ Hro)
    as (evs & _ & _ & _ & _ & Hne & _).
  exists wb. split; [exact Hro | exact Hne].
Defined.


End Runs.

(** ** More about the returns and their normalisation *)

Section Returns.
Import Num.
Local Open Scope R_scope.

Lemma Rsum_imap_scale (c : R) (l : list R) : forall f g : nat -> R -> R,
  (forall i x, f i x = c * g i x) ->
  Rsum (imap f l) = c * Rsum (imap g l).
Proof.
  induction l as [|x l IH]; intros f g Hfg; simpl; [lra|].
  rewrite (IH (f ∘ S) (g ∘ S)) by (intros i y; apply Hfg).
  rewrite Hfg. lra.
Qed.

Lemma discounted_sum_cons gamma r rs :
  Spec.discounted_sum gamma (r :: rs) = r + gamma * Spec.discounted_sum gamma rs.
Proof.
  unfold Spec.discounted_sum. simpl.
  rewrite (Rsum_imap_scale gamma rs _ (fun i r => gamma ^ i * r)).
  - lra.
  - intros i x. simpl. lra.
Qed.

Lemma discount_rewards_head gamma rs :
  hd 0 (discount_rewards gamma rs) = Spec.discounted_sum gamma rs.
Proof.
  destruct rs as [|r rs]; [unfold Spec.discounted_sum; done|].
  rewrite discount_rewards_cons, discounted_sum_cons. simpl. f_equal. f_equal.
  induction rs as [|r' rs IH]; [unfold Spec.discounted_sum; done|].
  rewrite discount_rewards_cons, discounted_sum_cons. simpl. by rewrite IH.
Qed.

(** X1: the return the discounting step computes for a step is the
    discounted sum of the rewards from that step to the end of the
    episode, the reward [i] steps later weighing [gamma ^ i]. *)
Theorem return_is_discounted_sum gamma rs t :
  (t < length rs)%nat ->
  discount_rewards gamma rs !! t = Some (Spec.discounted_sum gamma (drop t rs)).
Proof.
  revert t. induction rs as [|r rs IH]; intros t Ht; simpl in Ht; [lia|].
  rewrite discount_rewards_cons. destruct t as [|t].
  - simpl. rewrite discount_rewards_head, discounted_sum_cons. done.
  - simpl. apply IH. lia.
Qed.

Lemma return_is_discounted_sum_witness :
  discount_rewards discount_rate [1; 1; 1] !! 1%nat
  = Some (Spec.discounted_sum discount_rate [1; 1]).
Proof. apply (return_is_discounted_sum discount_rate [1; 1; 1] 1). simpl. lia. Defined.

(** X2: with a discount factor in [0, 1) and rewards between 0 and [B],
    every return lies between 0 and [B / (1 - gamma)], however long the
    episode is. *)
Theorem returns_bounded gamma B rs g :
  0 <= gamma < 1 ->
  Forall (fun r => 0 <= r <= B) rs ->
  In g (discount_rewards gamma rs) ->
  0 <= g <= B / (1 - gamma).
Proof.
  intros Hg Hrs. revert g.
  induction Hrs as [|r rs Hr Hrs IH]; intros g Hin; [done|].
  rewrite discount_rewards_cons in Hin. destruct Hin as [<-|Hin]; [|by apply IH].
  set (M := B / (1 - gamma)).
  assert (HM : M * (1 - gamma) = B) by (unfold M; field; lra).
  assert (Hh : 0 <= hd 0 (discount_rewards gamma rs) <= M).
  { destruct (discount_rewards gamma rs) as [|h G] eqn:HG; simpl.
    - split; [lra|]. unfold M. apply Rmult_le_pos; [lra|].
      apply Rlt_le, Rinv_0_lt_compat. lra.
    - apply IH. by left. }
  split; nra.
Qed.

Lemma returns_bounded_witness :
  0 <= 1 + discount_rate * 0 <= 1 / (1 - discount_rate).
Proof.
  apply (returns_bounded discount_rate 1 [1]).
  - unfold discount_rate. lra.
  - constructor; [lra | constructor].
  - rewrite discount_rewards_cons. by left.
Defined.

Lemma discount_rewards_scale c gamma rs :
  discount_rewards gamma (map (Rmult c) rs)
  = map (Rmult c) (discount_rewards gamma rs).
Proof.
  induction rs as [|r rs IH]; [done|].
  simpl map. rewrite !discount_rewards_cons, IH. simpl. f_equal.
  destruct (discount_rewards gamma rs); simpl; lra.
Qed.

(** X3: the normalised returns are as many as the rewards, and they are
    all finite or all non-finite: one undefined mean or deviation spoils
    every entry. *)
Theorem normalised_all_or_nothing gamma rs :
  length (discount_and_normailze_rewards gamma rs) = length rs /\
  (Forall is_Some (discount_and_normailze_rewards gamma rs) \/
   Forall (fun z => z = None) (discount_and_normailze_rewards gamma rs)).
Proof.
  split; [apply normalised_length|].
  unfold discount_and_normailze_rewards, normalize.
  set (t := torch_tensor _).
  destruct (tensor_mean t) as [m|], (tensor_std t) as [s|];
    try (right; unfold t, torch_tensor; rewrite map_map;
         apply Forall_map, Forall_forall; intros x _; done).
  unfold t, torch_tensor. rewrite map_map.
  destruct (Req_dec_T s 0) as [Hs|Hs].
  - right. apply Forall_map, Forall_forall. intros x _. simpl.
    by destruct (Req_dec_T s 0).
  - left. apply Forall_map, Forall_forall. intros x _. simpl.
    destruct (Req_dec_T s 0); [done | by eexists].
Qed.

Lemma Rsum_scale c xs : Rsum (map (Rmult c) xs) = c * Rsum xs.
Proof. induction xs as [|x xs IH]; simpl; [lra|]. rewrite IH. lra. Qed.

Lemma Rsum_squares_rescale c m xs :
  Rsum (map (fun x => (x - c * m) * (x - c * m)) (map (Rmult c) xs))
  = c * c * Rsum (map (fun x => (x - m) * (x - m)) xs).
Proof. induction xs as [|x xs IH]; simpl in *; [lra|]. rewrite IH. lra. Qed.

(** Normalising a finite tensor and normalising it scaled by a positive
    factor give the same result. *)
Lemma normalize_scale c xs :
  0 < c ->
  normalize (torch_tensor (map (Rmult c) xs)) = normalize (torch_tensor xs).
Proof.
  intros Hc. destruct xs as [|x0 xs0] eqn:Hxs; [done|]. rewrite <- Hxs.
  assert (Hne : xs <> []) by (by rewrite Hxs).
  assert (Hne' : map (Rmult c) xs <> []) by (by rewrite Hxs).
  set (m := Rsum xs / INR (length xs)).
  assert (Hn : INR (length xs) <> 0) by (apply not_0_INR; by rewrite Hxs).
  assert (Hm : tensor_mean (torch_tensor xs) = Some m)
    by (by apply tensor_mean_finite).
  assert (Hm' : tensor_mean (torch_tensor (map (Rmult c) xs)) = Some (c * m)).
  { rewrite tensor_mean_finite by done. rewrite Rsum_scale, length_map.
    f_equal. unfold m. field. done. }
  set (S := Rsum (map (fun x => (x - m) * (x - m)) xs)).
  destruct (Req_dec_T (INR (length xs - 1)) 0) as [Hn1|Hn1].
  - (* one entry: both deviations are 0/0 *)
    assert (Hs : tensor_std (torch_tensor xs) = None).
    { unfold tensor_std, tensor_var. rewrite Hm, deviations_finite,
        tensor_sum_finite, torch_tensor_length, Hn1. by rewrite fdiv_zero. }
    assert (Hs' : tensor_std (torch_tensor (map (Rmult c) xs)) = None).
    { unfold tensor_std, tensor_var. rewrite Hm', deviations_finite,
        tensor_sum_finite, torch_tensor_length, length_map, Hn1.
      by rewrite fdiv_zero. }
    unfold normalize. rewrite Hm, Hm', Hs, Hs'.
    unfold torch_tensor. rewrite !map_map. done.
  - assert (Hpos : 0 < INR (length xs - 1)).
    { pose proof (pos_INR (length xs - 1)). lra. }
    set (v := S / INR (length xs - 1)).
    assert (Hv : 0 <= v).
    { unfold v. apply Rmult_le_pos; [apply Rsum_squares_nonneg|].
      apply Rlt_le, Rinv_0_lt_compat, Hpos. }
    assert (Hs : tensor_std (torch_tensor xs) = Some (sqrt v)).
    { unfold tensor_std, tensor_var. rewrite Hm, deviations_finite,
        tensor_sum_finite, torch_tensor_length, fdiv_finite by done.
      fold S v. simpl. destruct (Rlt_dec v 0); [lra | done]. }
    assert (Hs' : tensor_std (torch_tensor (map (Rmult c) xs))
                  = Some (c * sqrt v)).
    { unfold tensor_std, tensor_var. rewrite Hm', deviations_finite,
        tensor_sum_finite, torch_tensor_length, length_map,
        fdiv_finite by done.
      rewrite Rsum_squares_rescale. fold S.
      replace (c * c * S / INR (length xs - 1)) with (c * c * v)
        by (unfold v; field; done).
      simpl. destruct (Rlt_dec (c * c * v) 0) as [Hlt|_]; [nra|].
      f_equal. rewrite sqrt_mult by nra. rewrite sqrt_square by lra. done. }
    unfold normalize. rewrite Hm, Hm', Hs, Hs'.
    unfold torch_tensor. rewrite !map_map. apply map_ext. intros x. simpl.
    destruct (Req_dec_T (sqrt v) 0) as [H0|H0].
    + rewrite H0, Rmult_0_r. by destruct (Req_dec_T 0 0).
    + destruct (Req_dec_T (c * sqrt v) 0) as [H1|H1]; [nra|].
      f_equal. field. split; lra.
Qed.

(** X4: the normalised returns do not depend on the unit of the
    rewards: multiplying every reward of the episode by the same
    positive factor leaves them as they are. *)
Theorem normalised_returns_scale_free c gamma rs :
  0 < c ->
  discount_and_normailze_rewards gamma (map (Rmult c) rs)
  = discount_and_normailze_rewards gamma rs.
Proof.
  intros Hc. unfold discount_and_normailze_rewards.
  rewrite discount_rewards_scale. by apply normalize_scale.
Qed.

Lemma normalised_returns_scale_free_witness :
  discount_and_normailze_rewards discount_rate (map (Rmult 2) [1; 1; 1])
  = discount_and_normailze_rewards discount_rate [1; 1; 1].
Proof. apply normalised_returns_scale_free. lra. Defined.

End Returns.

(** ** More about the network *)

Section Distribution.
Import Autograd.
Local Open Scope R_scope.



End Distribution.

(** ** More about the notebook's functions *)

Section Functions.
Context `{C : Collaborators}.
Import Num Autograd Trace.
Local Open Scope R_scope.

(** X6: when [select_action] returns on finite parameters, the action
    it returns is one of the two actions, whatever the sampler drew,
    and the log-probability it recorded is a finite negative number. *)
Theorem select_action_records state w h theta action w' :
  policy w = Remote h ->
  bob w !! h = Some (Parameters (Some theta)) ->
  select_action state w = (inr action, w') ->
  (action < 2)%nat /\
  exists d,
    episode_log_probs w' = episode_log_probs w ++ [Some d] /\ val d < 0.
Proof.
  intros Hp Hth H.
  apply select_action_inv in H
    as (h' & theta' & g & lp & Hp' & _ & Hth' & _ & Hlp & ->).
  assert (h' = h) as -> by congruence.
  assert (theta' = Some theta) as -> by congruence.
  simpl in Hlp. set (x := map dconst state) in *.
  split.
  - unfold log_prob in Hlp.
    destruct (Policy.forward theta x !! action) as [q|] eqn:Hq; [|done].
    apply lookup_lt_Some in Hq. by rewrite forward_length in Hq.
  - destruct (log_prob_finite _ _ _ Hlp) as (d & -> & _ & Hd).
    by exists d.
Qed.

(** X7: an action-selection step that returns leaves nothing behind on
    the worker: the worker's store is what it was before the step; the
    step also leaves the rewards, the totals, the place of the policy
    and the environment alone. *)
Theorem select_action_leaves_no_tensor state w action w' :
  fresh w ->
  select_action state w = (inr action, w') ->
  bob w' = bob w /\ fresh w' /\
  episode_raw_rewards w' = episode_raw_rewards w /\
  total_rewards w' = total_rewards w /\
  policy w' = policy w /\ env w' = env w.
Proof.
  intros Hf H.
  apply select_action_inv in H
    as (h' & theta' & g & lp & _ & _ & _ & _ & _ & ->). simpl.
  assert (Hb : delete (next_id w) (delete (S (next_id w))
                 (<[S (next_id w) := Tensor
                      (remote_forward theta' (Some (map dconst state)))]>
                    (<[next_id w := Tensor (Some (map dconst state))]> (bob w))))
               = bob w) by (apply fresh_restore; apply Hf; lia).
  split_and!; try done.
  intros i Hi. simpl in *. rewrite Hb. apply Hf. lia.
Qed.

(** X8: called with an empty buffer of log-probabilities or of rewards,
    [update_policy] raises the [RuntimeError] of [torch.cat] on an empty
    list before it has changed anything: the parameters and the other
    buffer are as they were. *)
Theorem update_policy_empty_buffer w :
  episode_log_probs w = [] \/ episode_raw_rewards w = [] ->
  update_policy w = (inl RuntimeError, w).
Proof.
  intros H. unfold update_policy, mbind, M_bind, gets, lift.
  destruct H as [H|H]; rewrite H; [done|].
  change (discount_and_normailze_rewards discount_rate []) with (@nil scalar).
  by destruct (episode_log_probs w).
Qed.


End Functions.

(** ** More about the training loop *)

Section StepLoop.
Context `{C : Collaborators}.
Import Num Autograd Trace.
Local Open Scope R_scope.

Lemma episode_steps_shape n : forall state er w er' w',
  episode_steps n state er w = (inr er', w') ->
  exists evs,
    trace w' = trace w ++ evs /\
    sends evs = steps evs /\
    retrieves evs = (2 * steps evs)%nat /\
    (steps evs <= n)%nat /\
    Forall env_paid evs /\
    ((0 < n)%nat ->
     exists k d, dones evs = replicate k false ++ [d] /\
                 (d = true \/ S k = n)).
Proof.
  induction n as [|n IH]; intros state er w er' w' H.
  - injection H as <- <-. exists []. simpl. rewrite app_nil_r.
    split_and!; try done. lia.
  - simpl in H.
    apply bind_inr in H as (action & w1 & H1 & H).
    apply select_action_inv in H1
      as (hp & theta & g & lp & _ & _ & _ & _ & _ & ->).
    apply bind_inr in H as ([[state' reward] d] & w2 & H2 & H).
    apply step_inv in H2 as (s & Hs & ->). simpl in *.
    apply bind_inr in H as ([] & w3 & H3 & H). injection H3 as <-.
    set (evs1 := [Send (next_id w); Get (S (next_id w)); Get (next_id w);
                  Step action reward d]).
    assert (Hpaid : Forall env_paid evs1).
    { repeat constructor. by exists (env w), state', s. }
    destruct d.
    + injection H as <- <-. exists evs1. simpl. rewrite <- !app_assoc.
      split_and!; try done; try lia.
      intros _. exists O, true. split; [done | by left].
    + destruct n as [|n].
      { injection H as <- <-. exists evs1. simpl. rewrite <- !app_assoc.
        split_and!; try done; try lia.
        intros _. exists O, false. split; [done | by right]. }
      apply IH in H as (evs & Ht & Hse & Hre & Hle & Hpd & Hdn).
      destruct Hdn as (k & d & Hk & Hd); [lia|].
      exists (evs1 ++ evs). simpl in *. rewrite Ht, <- !app_assoc. simpl.
      split_and!; try done; try lia.
      * change (Forall env_paid (evs1 ++ evs)). by apply Forall_app.
      * intros _. exists (S k), d. rewrite Hk. split; [done|].
        destruct Hd as [->|Hd]; [by left | right; lia].
Qed.

Lemma dones_length evs : length (dones evs) = steps evs.
Proof. induction evs as [|[] evs IH]; simpl; by rewrite ?IH. Qed.

Lemma rollout_shape m w wb :
  rollout m w = (inr tt, wb) ->
  exists evs,
    trace wb = trace w ++ Reset :: evs /\
    sends evs = steps evs /\
    retrieves evs = (2 * steps evs)%nat /\
    (steps evs <= m)%nat /\
    Forall env_paid evs /\
    ((0 < m)%nat ->
     exists k d, dones evs = replicate k false ++ [d] /\
                 (d = true \/ S k = m)).
Proof.
  unfold rollout. intros H.
  apply bind_inr in H as (state & w1 & H1 & H).
  apply reset_inv in H1 as (s & Hs & ->).
  apply bind_inr in H as (er & w2 & H2 & H).
  apply episode_steps_shape in H2 as (evs & Ht & Hrest).
  injection H as <-. simpl in *.
  exists evs. split; [|exact Hrest]. by rewrite Ht, <- app_assoc.
Qed.

(** X10: an episode takes at least one and at most [max_steps]
    environment steps, and it stops at the first step whose [done] is
    true: every step but the last returned [done = False], and the last
    returned [done = True] unless the step limit was reached. *)
Theorem rollout_stops_at_first_done m w wb :
  (0 < m)%nat ->
  rollout m w = (inr tt, wb) ->
  exists evs k d,
    trace wb = trace w ++ Reset :: evs /\
    steps evs = S k /\ (S k <= m)%nat /\
    dones evs = replicate k false ++ [d] /\
    (d = true \/ S k = m).
Proof.
  intros Hm H.
  apply rollout_shape in H as (evs & Ht & _ & _ & Hle & _ & Hdn).
  destruct (Hdn Hm) as (k & d & Hk & Hd).
  assert (Hsteps : steps evs = S k).
  { rewrite <- dones_length, Hk, length_app, length_replicate. simpl. lia. }
  exists evs, k, d. split_and!; try done. lia.
Qed.

(** X11: over a whole episode the boundary is crossed three times per
    environment step: as many values are sent to the worker as steps
    are taken, and twice as many are retrieved. *)
Theorem rollout_crossings m w wb :
  rollout m w = (inr tt, wb) ->
  exists evs,
    trace wb = trace w ++ Reset :: evs /\
    sends evs = steps evs /\
    retrieves evs = (2 * steps evs)%nat.
Proof.
  intros H. apply rollout_shape in H as (evs & Ht & Hs & Hr & _).
  by exists evs.
Qed.

Lemma Rsum_ones rs : Forall (fun r => r = 1) rs -> Rsum rs = INR (length rs).
Proof.
  induction 1 as [|r rs -> _ IH]; [done|].
  change (length (1 :: rs)) with (S (length rs)). rewrite S_INR. simpl.
  rewrite IH. lra.
Qed.

(** X12: in an environment that pays reward 1 at every step, as the
    cart-pole does, the total that an episode records is the number of
    steps the episode took. *)
Theorem unit_rewards_total_is_steps m w wb :
  (forall s action state reward d s',
     env_step s action = inr (state, reward, d, s') -> reward = 1) ->
  rollout m w = (inr tt, wb) ->
  exists evs,
    trace wb = trace w ++ Reset :: evs /\
    total_rewards wb = total_rewards w ++ [INR (steps evs)].
Proof.
  intros Henv H.
  destruct (rollout_shape _ _ _ H) as (evs & Ht & _ & _ & _ & Hpd & _).
  destruct (rollout_inv _ _ _ H)
    as (evs' & lps & Ht' & _ & _ & _ & Htot & _).
  assert (evs' = evs) as ->.
  { rewrite Ht in Ht'. apply app_inv_head in Ht'. by injection Ht'. }
  exists evs. split; [done|]. rewrite Htot. do 2 f_equal.
  rewrite steps_length. apply Rsum_ones.
  clear -Hpd Henv. induction Hpd as [|e evs He _ IH]; [done|].
  destruct e; simpl; try done. constructor; [|done].
  destruct He as (s & st & s' & He). by apply (Henv _ _ _ _ _ _ He).
Qed.



(** X15: an update that returns changes nothing but the parameters and
    the two buffers, which it empties: it crosses no boundary (the trace
    is as it was), and the totals, the environment, the sampler and
    every other object of the worker are untouched. *)
Theorem update_policy_changes_only_parameters w wa :
  update_policy w = (inr tt, wa) ->
  trace wa = trace w /\ total_rewards wa = total_rewards w /\
  env wa = env w /\ rng wa = rng w /\ next_id wa = next_id w /\
  (forall h i, policy w = Remote h -> i <> h -> bob wa !! i = bob w !! i) /\
  (forall theta, policy w = Local theta -> bob wa = bob w).
Proof.
  intros H. by apply update_policy_inv in H as (loss & _ & ->).
Qed.

End StepLoop.

(** ** More about the training cell *)

Section Cell.
Context `{C : Collaborators}.
Import Num Autograd Trace.
Local Open Scope R_scope.

Lemma mean_le_max t ts :
  Rsum (t :: ts) / INR (length (t :: ts)) <= foldl Rmax t ts.
Proof.
  destruct (foldl_Rmax_upper ts t) as [H1 H2].
  set (mx := foldl Rmax t ts) in *.
  assert (Hsum : forall l, (forall x, In x l -> x <= mx) ->
                           Rsum l <= INR (length l) * mx).
  { induction l as [|x l IH]; intros Hl; [simpl; lra|].
    change (length (x :: l)) with (S (length l)). rewrite S_INR. simpl.
    assert (x <= mx) by (apply Hl; by left).
    assert (Rsum l <= INR (length l) * mx) by (apply IH; intros; apply Hl; by right).
    lra. }
  assert (Hn : 0 < INR (length (t :: ts))) by (apply lt_0_INR; simpl; lia).
  assert (Hs : Rsum (t :: ts) <= INR (length (t :: ts)) * mx).
  { apply Hsum. intros x [<-|Hx]; [done | by apply H2]. }
  apply (Rmult_le_reg_r (INR (length (t :: ts)))); [done|].
  replace (Rsum (t :: ts) / INR (length (t :: ts)) * INR (length (t :: ts)))
    with (Rsum (t :: ts)) by (field; lra).
  lra.
Qed.

(** X16: the mean that the summary reports is a finite number and is
    never above the maximum it reports. *)
Theorem summary_mean_below_max n m w avg mx w' :
  training n m w = (inr (avg, mx), w') ->
  exists a, avg = Some a /\ a <= mx.
Proof.
  intros H. apply training_inv in H
    as (evs & groups & mx' & _ & _ & _ & _ & _ & _ & Hmx & Hr).
  injection Hr as -> <-.
  destruct (total_rewards w') as [|t ts]; [done|]. injection Hmx as <-.
  eexists. split.
  - unfold np_mean. apply fdiv_finite, not_0_INR. done.
  - apply mean_le_max.
Qed.



(** *** Every statement but [bob.clear_objects()] is quiet *)

Lemma quiet_bind {A B} (m : M A) (k : A -> M B) :
  quiet m -> (forall a, quiet (k a)) -> quiet (m ≫= k).
Proof.
  intros Hm Hk w r w' H. unfold mbind, M_bind in H.
  destruct (m w) as [[e|a] w1] eqn:Hmw.
  - injection H as <- <-. by apply (Hm w (inl e)).
  - destruct (Hm _ _ _ Hmw) as (evs1 & Ht1 & Hc1).
    destruct (Hk a _ _ _ H) as (evs2 & Ht2 & Hc2).
    exists (evs1 ++ evs2). split; [by rewrite Ht2, Ht1, app_assoc|].
    by apply not_in_clear_app.
Qed.

Lemma quiet_silent {A} (m : M A) :
  (forall w r w', m w = (r, w') -> trace w' = trace w) -> quiet m.
Proof.
  intros Hm w r w' H. exists []. rewrite app_nil_r.
  split; [by apply (Hm w r) | by intros []].
Qed.

Lemma quiet_one {A} (m : M A) :
  (forall w r w', m w = (r, w') ->
     trace w' = trace w \/ exists e, e <> Clear /\ trace w' = trace w ++ [e]) ->
  quiet m.
Proof.
  intros Hm w r w' H. destruct (Hm _ _ _ H) as [Ht|(e & He & Ht)].
  - exists []. rewrite app_nil_r. split; [done | by intros []].
  - exists [e]. split; [done|]. intros [?|[]]. congruence.
Qed.

Lemma quiet_mret {A} (a : A) : quiet (mret a).
Proof. apply quiet_silent. intros w r w' H. by injection H as <- <-. Qed.

Lemma quiet_raise {A} e : quiet (raise (A:=A) e).
Proof. apply quiet_silent. intros w r w' H. by injection H as <- <-. Qed.

Lemma quiet_gets {A} (f : world -> A) : quiet (gets f).
Proof. apply quiet_silent. intros w r w' H. by injection H as <- <-. Qed.

Lemma quiet_lift {A} (x : error + A) : quiet (lift x).
Proof. apply quiet_silent. intros w r w' H. by injection H as <- <-. Qed.

Lemma quiet_modify f :
  (forall w, trace (f w) = trace w) -> quiet (modify f).
Proof.
  intros Hf. apply quiet_silent. intros w r w' H. injection H as <- <-.
  apply Hf.
Qed.

Lemma quiet_send o : quiet (send o).
Proof.
  apply quiet_one. intros w r w' H. injection H as <- <-.
  right. by exists (Send (next_id w)).
Qed.

Lemma quiet_get h : quiet (get h).
Proof.
  apply quiet_one. intros w r w' H. unfold get in H.
  destruct (bob w !! h); injection H as <- <-; [|by left].
  right. by exists (Get h).
Qed.

Lemma quiet_policy_call h : quiet (policy_call h).
Proof.
  apply quiet_silent. intros w r w' H. unfold policy_call in H.
  repeat case_match; by injection H as <- <-.
Qed.

Lemma quiet_sample p : quiet (sample p).
Proof.
  apply quiet_silent. intros w r w' H. unfold sample in H.
  repeat case_match; by injection H as <- <-.
Qed.

Lemma quiet_reset : quiet reset.
Proof.
  apply quiet_one. intros w r w' H. unfold reset in H.
  repeat case_match; injection H as <- <-; [by left|].
  right. by exists Reset.
Qed.

Lemma quiet_step a : quiet (step a).
Proof.
  apply quiet_one. intros w r w' H. unfold step in H.
  repeat case_match; injection H as <- <-; [by left|].
  right. by eexists (Step _ _ _).
Qed.

Lemma quiet_select_action state : quiet (select_action state).
Proof.
  unfold select_action.
  apply quiet_bind; [apply quiet_send|]. intros h1.
  apply quiet_bind; [apply quiet_policy_call|]. intros h2.
  apply quiet_bind; [apply quiet_get|]. intros [probs|theta];
    [|apply quiet_raise].
  apply quiet_bind; [apply quiet_sample|]. intros a.
  apply quiet_bind; [apply quiet_lift|]. intros lp.
  apply quiet_bind; [by apply quiet_modify|]. intros _.
  apply quiet_bind; [apply quiet_get|]. intros _. apply quiet_mret.
Qed.

Lemma quiet_backward_and_step loss : quiet (backward_and_step loss).
Proof. apply quiet_mret. Qed.

Lemma quiet_update_policy : quiet update_policy.
Proof.
  unfold update_policy.
  apply quiet_bind; [apply quiet_gets|]. intros lps.
  apply quiet_bind; [apply quiet_gets|]. intros rs.
  apply quiet_bind; [apply quiet_lift|]. intros loss.
  apply quiet_bind; [apply quiet_backward_and_step|]. intros _.
  apply quiet_bind; [by apply quiet_modify|]. intros _.
  by apply quiet_modify.
Qed.

Lemma quiet_episode_steps n : forall state er, quiet (episode_steps n state er).
Proof.
  induction n as [|n IH]; intros state er; [apply quiet_mret|].
  simpl. apply quiet_bind; [apply quiet_select_action|]. intros a.
  apply quiet_bind; [apply quiet_step|]. intros [[state' reward] d].
  apply quiet_bind; [by apply quiet_modify|]. intros _.
  destruct d; [apply quiet_mret | apply IH].
Qed.

Lemma quiet_episodes n m : quiet (episodes n m).
Proof.
  induction n as [|n IH]; [apply quiet_mret|].
  simpl. apply quiet_bind; [|intros _; apply IH].
  unfold episode. apply quiet_bind; [|intros _; apply quiet_update_policy].
  unfold rollout. apply quiet_bind; [apply quiet_reset|]. intros state.
  apply quiet_bind; [apply quiet_episode_steps|]. intros er.
  by apply quiet_modify.
Qed.

Lemma quiet_policy_send : quiet policy_send.
Proof.
  unfold policy_send. apply quiet_bind; [apply quiet_gets|].
  intros [theta|h]; [|apply quiet_raise].
  apply quiet_bind; [apply quiet_send|]. intros h. by apply quiet_modify.
Qed.

Lemma quiet_policy_get : quiet policy_get.
Proof.
  unfold policy_get. apply quiet_bind; [apply quiet_gets|].
  intros [theta|h]; [apply quiet_raise|].
  apply quiet_bind; [apply quiet_get|].
  intros [t|theta]; [apply quiet_raise | by apply quiet_modify].
Qed.

(** X17: no failure path of the training cell reaches the cleanup:
    whenever a run of at least one episode ends with an exception, the
    worker was not cleared at any moment of the run. *)
Theorem failed_run_never_clears n m w e w' :
  (0 < n)%nat ->
  training n m w = (inl e, w') ->
  exists evs, trace w' = trace w ++ evs /\ ~ In Clear evs.
Proof.
  intros Hn H.
  set (prefix := modify (set_total_rewards []) ≫= fun _ =>
                 policy_send ≫= fun _ =>
                 episodes n m ≫= fun _ => policy_get).
  assert (Hq : quiet prefix).
  { unfold prefix. apply quiet_bind; [by apply quiet_modify|]. intros _.
    apply quiet_bind; [apply quiet_policy_send|]. intros _.
    apply quiet_bind; [apply quiet_episodes|]. intros _.
    apply quiet_policy_get. }
  assert (Hrel : training n m w
                 = match prefix w with
                   | (inl e, w') => (inl e, w')
                   | (inr _, w4) =>
                       (clear_objects ≫= fun _ =>
                        gets total_rewards ≫= fun totals =>
                        np_max totals ≫= fun mx =>
                        mret (np_mean totals, mx)) w4
                   end).
  { unfold prefix, training, mbind, M_bind.
    destruct (modify _ w) as [[?|?] ?]; [done|].
    destruct (policy_send _) as [[?|?] ?]; [done|].
    destruct (episodes _ _ _) as [[?|?] ?]; [done|].
    destruct (policy_get _) as [[?|[]] ?]; done. }
  rewrite Hrel in H.
  destruct (prefix w) as [[e0|[]] w4] eqn:Hpre.
  - (* the exception is raised before the cleanup line *)
    injection H as <- <-. by apply (Hq w (inl e0)).
  - (* the cleanup line is reached: then the summary does not raise *)
    exfalso.
    assert (Htot : length (total_rewards w4) = n).
    { revert Hpre. unfold prefix. intros Hpre.
      apply bind_inr in Hpre as ([] & w1 & H1 & Hpre). injection H1 as <-.
      apply bind_inr in Hpre as ([] & w2 & H2 & Hpre).
      unfold policy_send in H2.
      apply bind_inr in H2 as (l & w1' & Hl & H2). injection Hl as <- <-.
      simpl in H2. destruct (policy w) as [theta|]; [|done].
      apply bind_inr in H2 as (h & w1' & Hs & H2). rewrite send_run in Hs.
      injection Hs as <- <-. injection H2 as <-.
      apply bind_inr in Hpre as ([] & w3 & H3 & Hpre).
      apply episodes_inv in H3
        as (evs & groups & _ & _ & Hlen & Htot & _).
      simpl in Htot.
      unfold policy_get in Hpre.
      apply bind_inr in Hpre as (l & w3' & Hl & H4). injection Hl as <- <-.
      destruct (policy w3) as [|hp]; [done|].
      apply bind_inr in H4 as (o & w3' & Hg & H4).
      apply get_inv in Hg as [Ho ->].
      destruct o as [|theta']; [done|]. injection H4 as <-. simpl.
      by rewrite Htot, length_map. }
    unfold mbind, M_bind, clear_objects, modify, gets in H. simpl in H.
    destruct (total_rewards w4) as [|t ts]; [simpl in Htot; lia|].
    simpl in H. done.
Qed.

End Cell.

(** ** The training cell returns, and can be run again *)

Section CellReturns.
Context `{C : Collaborators}.
Import Num Autograd Trace.

Hypothesis env_reset_total : forall s, exists r, env_reset s = inr r.
Hypothesis env_step_total : forall s a, exists r, env_step s a = inr r.
Hypothesis sampler_total : forall g p,
  exists a g', multinomial g p = inr (a, g') /\ (a < 2)%nat.



End CellReturns.

(** ** The further theorems at concrete runs *)

Section MoreRuns.
Import Num Autograd Trace Stub.
Local Open Scope R_scope.

Lemma select_action_records_witness :
  exists action w' d,
    @select_action five_steps [0; 0; 0; 0] sent = (inr action, w') /\
    (action < 2)%nat /\
    episode_log_probs w' = episode_log_probs sent ++ [Some d] /\ val d < 0.
Proof.
  destruct (@select_action_progress five_steps five_steps_sampler_total
              [0; 0; 0; 0] sent sent_resident) as (a & w' & H & _).
  destruct (@select_action_records five_steps [0; 0; 0; 0] sent O theta0 a w'
              eq_refl (lookup_singleton_eq _ _) H) as (Ha & d & Hl & Hd).
  exists a, w', d. split; [exact H|]. split; [exact Ha|].
  split; [exact Hl | exact Hd].
Defined.

Lemma select_action_leaves_no_tensor_witness :
  exists action w',
    @select_action five_steps [0; 0; 0; 0] sent = (inr action, w') /\
    bob w' = bob sent.
Proof.
  destruct (@select_action_progress five_steps five_steps_sampler_total
              [0; 0; 0; 0] sent sent_resident) as (a & w' & H & _).
  destruct (@select_action_leaves_no_tensor five_steps [0; 0; 0; 0] sent a w'
              sent_fresh H) as (Hb & _).
  exists a, w'. split; [exact H | exact Hb].
Defined.

Lemma update_policy_empty_buffer_witness :
  @update_policy five_steps start = (inl RuntimeError, start).
Proof. apply update_policy_empty_buffer. left. reflexivity. Defined.


Lemma rollout_stops_at_first_done_witness :
  exists wb evs k d,
    @rollout five_steps max_steps sent = (inr tt, wb) /\
    steps evs = S k /\ dones evs = replicate k false ++ [d].
Proof.
  assert (Hm : (0 < max_steps)%nat) by (unfold max_steps; lia).
  destruct (@rollout_progress five_steps five_steps_reset_total
              five_steps_step_total five_steps_sampler_total
              max_steps sent sent_resident) as (wb & Hro & _).
  destruct (@rollout_stops_at_first_done five_steps max_steps sent wb Hm Hro)
    as (evs & k & d & _ & Hs & _ & Hd & _).
  exists wb, evs, k, d. split; [exact Hro|]. split; [exact Hs | exact Hd].
Defined.

Lemma rollout_crossings_witness :
  exists wb evs,
    @rollout five_steps max_steps sent = (inr tt, wb) /\
    sends evs = steps evs /\ retrieves evs = (2 * steps evs)%nat.
Proof.
  destruct (@rollout_progress five_steps five_steps_reset_total
              five_steps_step_total five_steps_sampler_total
              max_steps sent sent_resident) as (wb & Hro & _).
  destruct (@rollout_crossings five_steps max_steps sent wb Hro)
    as (evs & _ & Hs & Hr).
  exists wb, evs. split; [exact Hro|]. split; [exact Hs | exact Hr].
Defined.

Lemma unit_rewards_total_is_steps_witness :
  exists wb evs,
    @rollout five_steps max_steps sent = (inr tt, wb) /\
    total_rewards wb = total_rewards sent ++ [INR (steps evs)].
Proof.
  destruct (@rollout_progress five_steps five_steps_reset_total
              five_steps_step_total five_steps_sampler_total
              max_steps sent sent_resident) as (wb & Hro & _).
  assert (Henv : forall s action state reward d s',
            @env_step five_steps s action = inr (state, reward, d, s') ->
            reward = 1).
  { intros s a st r d s' H. by injection H as _ <- _ _. }
  destruct (@unit_rewards_total_is_steps five_steps max_steps sent wb Henv Hro)
    as (evs & _ & Htot).
  exists wb, evs. split; [exact Hro | exact Htot].
Defined.



Lemma update_policy_changes_only_parameters_witness :
  exists wb wa,
    @update_policy five_steps wb = (inr tt, wa) /\
    trace wa = trace wb /\ total_rewards wa = total_rewards wb.
Proof.
  destruct five_steps_episode_runs as (wb & wa & _ & Hup).
  destruct (@update_policy_changes_only_parameters five_steps wb wa Hup)
    as (Ht & Htot & _).
  exists wb, wa. split; [exact Hup|]. split; [exact Ht | exact Htot].
Defined.

Lemma summary_mean_below_max_witness :
  exists avg mx w' a,
    @main five_steps start = (inr (avg, mx), w') /\ avg = Some a /\ a <= mx.
Proof.
  assert (Hn : (0 < n_episodes)%nat) by (unfold n_episodes; lia).
  assert (Hm : (0 < max_steps)%nat) by (unfold max_steps; lia).
  destruct (@training_progress five_steps five_steps_reset_total
              five_steps_step_total five_steps_sampler_total
              n_episodes max_steps start (Some theta0) Hn Hm eq_refl
              (initial_fresh _ _ _))
    as ([avg mx] & w' & H).
  destruct (@summary_mean_below_max five_steps _ _ _ _ _ _ H) as (a & Ha & Hle).
  exists avg, mx, w', a. split; [exact H|]. split; [exact Ha | exact Hle].
Defined.

Lemma failed_run_never_clears_witness :
  exists e w' evs,
    @main broken broken_start = (inl e, w') /\
    trace w' = trace broken_start ++ evs /\ ~ In Clear evs.
Proof.
  assert (Hn : (0 < n_episodes)%nat) by (unfold n_episodes; lia).
  destruct (broken_run 499 999) as (lp & w' & Hrun & _).
  destruct (@failed_run_never_clears broken n_episodes max_steps broken_start
              EnvironmentError w' Hn Hrun) as (evs & Ht & Hc).
  exists EnvironmentError, w', evs. split; [exact Hrun|].
  split; [exact Ht | exact Hc].
Defined.



End MoreRuns.
